(** * SupervisedContrastiveTraining.py: the memory queue, the momentum update
    and the contrastive loss of [SupervisedContrast].

    The queue is the Python dict [self.queue : int -> list of tensors]; it is
    modelled as a [gmap Z (list tensor)], a tensor being the list of its rows.
    Python exceptions ([KeyError], [IndexError], torch's [RuntimeError]) abort
    the run, the source has no handler: a raising operation returns [Raise].
    Tensor entries are idealised as real numbers (exact arithmetic); the one
    IEEE rule that is modelled is the division of the loss by a zero
    denominator. *)

From Stdlib Require Import ZArith List Sorted Reals Lra Lia.
From stdpp Require Import gmap list.

(** ** Exceptions and results *)

Inductive exn : Type := IndexError | KeyError | RuntimeError.

Inductive result (A : Type) : Type :=
| Ok (a : A)
| Raise (e : exn).
Arguments Ok {A} a.
Arguments Raise {A} e.

(** Sequencing: an exception of the first statement skips the rest. The
    notation [x ← m; k] is the one of stdpp's [MBind]. *)
#[global] Instance result_bind : MBind result := λ A B k m,
  match m with
  | Ok a => k a
  | Raise e => Raise e
  end.

(** [for i in ks: s = body(i, s)], stopping at the first exception. *)
Fixpoint for_each {S : Type} (body : Z → S → result S) (ks : list Z) (s : S)
  : result S :=
  match ks with
  | [] => Ok s
  | i :: ks' => s' ← body i s ; for_each body ks' s'
  end.

(** Python's [range(n)]: empty when [n <= 0]. *)
Definition range (n : Z) : list Z := Z.of_nat <$> seq 0 (Z.to_nat n).

(** ** The memory queue *)

Section Queue.
Context {image embedding : Type}.

(** A batch of the loader: the images [x] and their integer labels [y]. *)
Definition batch : Type := list image * list Z.

(** [self.teacher_forward], applied to a batch of images, gives a tensor of
    one embedding row per image. *)
Variable teacher_forward : list image → list embedding.

(** [self.num_classes]. *)
Variable num_classes : Z.

(** [y == i]. *)
Definition label_eq (y : list Z) (i : Z) : list bool :=
  (λ l, bool_decide (l = i)) <$> y.

(** [x[mask]] for a boolean mask: the rows of [x] whose mask is true; torch
    raises an IndexError when the mask does not have the length of [x]. *)
Definition select_rows {A : Type} (x : list A) (mask : list bool) : list A :=
  fst <$> filter (λ p, p.2 = true) (zip x mask).

Definition index_mask {A : Type} (x : list A) (mask : list bool)
  : result (list A) :=
  if decide (length x = length mask)
  then Ok (select_rows x mask)
  else Raise IndexError.

(** [self.queue[i].append(e)]. *)
Definition append_slot (i : Z) (e : list embedding)
    (q : gmap Z (list (list embedding))) : result (gmap Z (list (list embedding))) :=
  match q !! i with
  | Some l => Ok (<[i := l ++ [e]]> q)
  | None => Raise KeyError
  end.

(** The body of the loop of [enqueue] for one batch [(x, y)]:
    [for i in range(self.num_classes): mask = y == i;
       self.queue[i].append(self.teacher_forward(x[mask]))]. *)
Definition enqueue_batch (b : batch) (q : gmap Z (list (list embedding)))
  : result (gmap Z (list (list embedding))) :=
  for_each
    (λ i q,
       match q !! i with
       | Some _ =>
           xm ← index_mask b.1 (label_eq b.2 i) ;
           append_slot i (teacher_forward xm) q
       | None => Raise KeyError
       end)
    (range num_classes) q.

(** [for step, (x, y) in enumerate(self.loader): if step >= size: break; ...]
    over the batches the loader yields, from step [step] on. *)
Fixpoint enqueue_loop (size step : Z) (loader : list batch)
    (q : gmap Z (list (list embedding))) : result (gmap Z (list (list embedding))) :=
  match loader with
  | [] => Ok q
  | b :: loader' =>
      if decide (step >= size)%Z then Ok q
      else q' ← enqueue_batch b q ; enqueue_loop size (step + 1) loader' q'
  end.

(** [enqueue(self, size=1)]; [loader] is what iterating [self.loader] from
    its start yields. *)
Definition enqueue (loader : list batch) (size : Z)
    (q : gmap Z (list (list embedding))) : result (gmap Z (list (list embedding))) :=
  enqueue_loop size 0 loader q.

(** [self.queue[i].pop(0)]. *)
Definition pop0 (i : Z) (q : gmap Z (list (list embedding)))
  : result (gmap Z (list (list embedding))) :=
  match q !! i with
  | Some (_ :: l) => Ok (<[i := l]> q)
  | Some [] => Raise IndexError
  | None => Raise KeyError
  end.

(** [dequeue(self, size=1)]. *)
Definition dequeue (size : Z) (q : gmap Z (list (list embedding)))
  : result (gmap Z (list (list embedding))) :=
  for_each (λ i q, for_each (λ _ q, pop0 i q) (range size) q)
           (range num_classes) q.

(** [self.queue = {}; for i in range(self.num_classes): self.queue[i] = []]. *)
Definition empty_queue : gmap Z (list (list embedding)) :=
  foldl (λ q i, <[i := []]> q) ∅ (range num_classes).

(** [initialize_queue(self, queue_size=10)]. *)
Definition initialize_queue (loader : list batch) (queue_size : Z)
  : result (gmap Z (list (list embedding))) :=
  enqueue loader queue_size empty_queue.

(** [torch.cat(ts, dim=0)]: the rows of the tensors one after the other;
    torch raises a RuntimeError on an empty list of tensors. *)
Definition torch_cat (ts : list (list embedding)) : result (list embedding) :=
  match ts with
  | [] => Raise RuntimeError
  | _ => Ok (concat ts)
  end.

(** [get_queue(self)]: the state of the loop is the pair of the Python lists
    [x] and [y]. *)
Definition get_queue (q : gmap Z (list (list embedding)))
  : result (list embedding * list Z) :=
  xy ← for_each
         (λ i (xy : list (list embedding) * list Z),
            match q !! i with
            | Some slot =>
                now_x ← torch_cat slot ;
                Ok (xy.1 ++ [now_x], xy.2 ++ replicate (length now_x) i)
            | None => Raise KeyError
            end)
         (range num_classes) ([], []) ;
  x ← torch_cat xy.1 ;
  Ok (x, xy.2).

(** *** Vocabulary of the statements *)

(** The loader pairs every image with a label. *)
Definition aligned (b : batch) : Prop := length b.1 = length b.2.

(** Every class of [range(num_classes)] has its slot. *)
Definition has_slots (q : gmap Z (list (list embedding))) : Prop :=
  ∀ c, c ∈ range num_classes → is_Some (q !! c).

(** The slot of class [c]. *)
Definition slot (q : gmap Z (list (list embedding))) (c : Z)
  : list (list embedding) :=
  default [] (q !! c).

(** Every slot holds [n] entries. *)
Definition equal_length (q : gmap Z (list (list embedding))) (n : nat) : Prop :=
  ∀ c, c ∈ range num_classes → ∃ l, q !! c = Some l ∧ length l = n.

(** The embeddings queued in a slot: the rows of all its entries. *)
Definition slot_rows (l : list (list embedding)) : nat := length (concat l).

(** The entry [enqueue] appends to the slot of class [c] for the batch [b]. *)
Definition class_entry (b : batch) (c : Z) : list embedding :=
  teacher_forward (select_rows b.1 (label_eq b.2 c)).

(** The samples of label [c] in a batch and in a sequence of batches. *)
Definition count_label (c : Z) (y : list Z) : nat :=
  length (filter (λ l, l = c) y).
Definition samples_of_class (c : Z) (bs : list batch) : nat :=
  sum_list ((λ b : batch, count_label c b.2) <$> bs).

End Queue.

(** A small instance to run the queue on: images and embeddings are numbers,
    the teacher returns its input, there are two classes. *)
Definition example_teacher (x : list nat) : list nat := x.
Definition example_batch : @batch nat := ([7; 8; 9]%nat, [0; 1; 0]%Z).
Definition example_queue : gmap Z (list (list nat)) :=
  <[0%Z := [[1%nat]]]> (<[1%Z := [[2; 3]%nat]]> ∅).

(** ** The momentum update of the teacher *)

(** A parameter of a network: the entries of [p.data], and [p.requires_grad]. *)
Record parameter : Type := Parameter_ {
  data : list R;
  requires_grad : bool
}.

(** [t.data = m * t.data + (1 - m) * s.data; t.requires_grad = False], entry
    by entry. The two networks are built from the same architecture, so [s]
    and [t] have the same shape; on tensors of two shapes torch broadcasts
    or raises, where [zip_with] stops at the shorter one. *)
Definition momentum_step (m : R) (s t : parameter) : parameter :=
  {| data := zip_with (λ tv sv, m * tv + (1 - m) * sv)%R (data t) (data s);
     requires_grad := false |}.

(** [momentum_synchronize(self, m=0.9)], as a function from the parameters of
    the student and of the teacher to the new parameters of the teacher.
    [zip] stops at the shorter sequence: teacher parameters beyond it are not
    visited. *)
Fixpoint momentum_synchronize (m : R) (student teacher : list parameter)
  : list parameter :=
  match student, teacher with
  | s :: student', t :: teacher' =>
      momentum_step m s t :: momentum_synchronize m student' teacher'
  | _, _ => teacher
  end.

(** The two parameter sequences line up: as many parameters, of the same
    shapes (the student and the teacher are the same architecture). *)
Definition aligned_parameters (student teacher : list parameter) : Prop :=
  Forall2 (λ s t, length (data s) = length (data t)) student teacher.

(** ** The contrastive loss *)

(** The scalar a loss evaluates to: a real, or what IEEE division gives on a
    zero divisor. *)
Inductive loss_value : Type :=
| Finite (r : R)
| Inf
| NaN.

Definition is_finite (v : loss_value) : bool :=
  match v with
  | Finite _ => true
  | _ => false
  end.

Section Loss.
Local Open Scope R_scope.

(** [torch.sum] of a vector and of a matrix. *)
Definition rsum (v : list R) : R := foldr Rplus 0 v.
Definition torch_sum (a : list (list R)) : R := rsum (rsum <$> a).

(** Division of two scalar tensors: no exception on a zero divisor, the
    result is nan for [0 / 0] and an infinity otherwise. *)
Definition ieee_div (a b : R) : loss_value :=
  if Req_dec_T b 0 then (if Req_dec_T a 0 then NaN else Inf)
  else Finite (a / b).

(** [F.normalize(x, dim=1)] with its defaults [p=2, eps=1e-12]: every row
    [v] becomes [v / max(||v||_2, eps)]. *)
Definition eps : R := / 10 ^ 12.
Definition norm2 (v : list R) : R := sqrt (rsum ((λ a, a * a) <$> v)).
Definition normalize_row (v : list R) : list R :=
  (λ a, a / Rmax (norm2 v) eps) <$> v.
Definition normalize (x : list (list R)) : list (list R) :=
  normalize_row <$> x.

(** [a.T] for [a] of shape (n, d): [d] rows, the columns of [a]. *)
Definition column (j : nat) (a : list (list R)) : list R :=
  (λ row, nth j row 0) <$> a.
Definition transpose (d : nat) (a : list (list R)) : list (list R) :=
  (λ k, column k a) <$> seq 0 d.

(** [a @ b] for [a] of shape (n, d) and [b] of shape (d, m). *)
Definition dot (u v : list R) : R := rsum (zip_with Rmult u v).
Definition matmul (m : nat) (a b : list (list R)) : list (list R) :=
  (λ row, (λ j, dot row (column j b)) <$> seq 0 m) <$> a.

(** [y.float().unsqueeze(1)], shape (n, 1), and [y.float().unsqueeze(0)],
    shape (1, n). *)
Definition unsqueeze1 (y : list Z) : list (list R) := (λ l, [IZR l]) <$> y.
Definition unsqueeze0 (y : list Z) : list (list R) := [IZR <$> y].

(** A function applied to every entry of a matrix. *)
Definition entrywise (f : R → R) (a : list (list R)) : list (list R) :=
  (λ row : list R, f <$> row) <$> a.

(** [F.softmax(g, dim=1)] and [torch.log]. *)
Definition softmax_row (g : list R) : list R :=
  (λ a, exp a / rsum (exp <$> g)) <$> g.
Definition softmax (g : list (list R)) : list (list R) := softmax_row <$> g.
Definition torch_log (a : list (list R)) : list (list R) := entrywise ln a.

(** Entrywise [a / t], [-a] and [a * b] on matrices of one shape. *)
Definition div_scalar (a : list (list R)) (t : R) : list (list R) :=
  entrywise (λ v, v / t) a.
Definition neg (a : list (list R)) : list (list R) := entrywise Ropp a.
Definition mul (a b : list (list R)) : list (list R) :=
  zip_with (zip_with Rmult) a b.

(** [k * x] for a scalar [k]. *)
Definition scale (k : R) (a : list (list R)) : list (list R) :=
  entrywise (Rmult k) a.

(** [label_mask = y.float().unsqueeze(1) @ queue_y.float().unsqueeze(0)]. *)
Definition label_mask (y queue_y : list Z) : list (list R) :=
  matmul (length queue_y) (unsqueeze1 y) (unsqueeze0 queue_y).

(** [gram = x @ queue_x.T / t] on the normalized [x] and [queue_x]; [D] is
    the feature dimension, [queue_x.T] has shape (D, N2). *)
Definition gram (D : nat) (x queue_x : list (list R)) (t : R) : list (list R) :=
  div_scalar (matmul (length queue_x) x (transpose D queue_x)) t.

(** [chr_loss(self, x, y, queue_x, queue_y, t=1)], for [x] of shape (N1, D),
    [y] of shape (N1), [queue_x] of shape (N2, D), [queue_y] of shape (N2)
    and a temperature [t] other than 0. On other shapes torch raises or
    broadcasts, where the lists here are cut to the shorter one; at [t = 0]
    torch divides to infinities and returns nan. The entries are real
    numbers: a softmax probability is never 0 here, in floats it underflows
    to 0 at temperatures close to 0, and its log is then an infinity. *)
Definition chr_loss (D : nat) (x : list (list R)) (y : list Z)
    (queue_x : list (list R)) (queue_y : list Z) (t : R) : loss_value :=
  let x := normalize x in
  let queue_x := normalize queue_x in
  let gram := gram D x queue_x t in
  let label_mask := label_mask y queue_y in
  let log_probs := torch_log (softmax gram) in
  ieee_div (torch_sum (mul (neg label_mask) log_probs)) (torch_sum label_mask).

(** The loss in the words of the specification, entry by entry and on none
    of the definitions above: a row is L2-normalized, that is divided by its
    Euclidean norm; [gram[i,j]] is the dot product of the normalized rows
    [i] of [x] and [j] of [queue_x] over [t]; [labelMask[i,j]] is
    [batchLabel_i * queueLabel_j]; the softmax runs over the [N2] entries of
    a row; the loss is
    [-sum(labelMask * log(softmax_probs)) / sum(labelMask)]. *)
Fixpoint sum_upto (n : nat) (f : nat → R) : R :=
  match n with
  | O => 0
  | S n' => sum_upto n' f + f n'
  end.

Definition spec_norm (D : nat) (v : list R) : R :=
  sqrt (sum_upto D (λ k, nth k v 0 * nth k v 0)).

Definition spec_gram (D : nat) (x queue_x : list (list R)) (t : R)
    (i j : nat) : R :=
  sum_upto D (λ k, nth k (nth i x []) 0 / spec_norm D (nth i x [])
                   * (nth k (nth j queue_x []) 0
                      / spec_norm D (nth j queue_x [])))
  / t.

Definition spec_mask (y queue_y : list Z) (i j : nat) : R :=
  IZR (nth i y 0%Z) * IZR (nth j queue_y 0%Z).

Definition spec_softmax (N2 : nat) (g : nat → nat → R) (i j : nat) : R :=
  exp (g i j) / sum_upto N2 (λ j', exp (g i j')).

Definition spec_numerator (D : nat) (x : list (list R)) (y : list Z)
    (queue_x : list (list R)) (queue_y : list Z) (t : R) : R :=
  - sum_upto (length x) (λ i,
      sum_upto (length queue_x) (λ j,
        spec_mask y queue_y i j
        * ln (spec_softmax (length queue_x) (spec_gram D x queue_x t) i j))).

Definition spec_denominator (x : list (list R)) (y : list Z)
    (queue_x : list (list R)) (queue_y : list Z) : R :=
  sum_upto (length x) (λ i,
    sum_upto (length queue_x) (λ j, spec_mask y queue_y i j)).

Definition chr_loss_spec (D : nat) (x : list (list R)) (y : list Z)
    (queue_x : list (list R)) (queue_y : list Z) (t : R) : R :=
  spec_numerator D x y queue_x queue_y t / spec_denominator x y queue_x queue_y.

(** The quantities the loss is assembled from: the entry [a[i,j]] of a
    matrix, the logit of a batch row against a queue row, the log of its
    softmax probability within the queue, and the sum of these logs weighted
    by the products of the labels. *)
Definition entry (a : list (list R)) (i j : nat) : R := nth j (nth i a []) 0.

Definition logit (t : R) (xi qj : list R) : R :=
  dot (normalize_row xi) (normalize_row qj) / t.

Definition row_log_prob (t : R) (queue_x : list (list R)) (xi qj : list R) : R :=
  ln (exp (logit t xi qj) / rsum ((λ q, exp (logit t xi q)) <$> queue_x)).

Definition weighted_log_probs (x : list (list R)) (y : list Z)
    (queue_x : list (list R)) (queue_y : list Z) (t : R) : R :=
  rsum (zip_with
          (λ yi xi, rsum (zip_with
                            (λ qyj qj, IZR yi * IZR qyj * row_log_prob t queue_x xi qj)
                            queue_y queue_x))
          y x).

End Loss.

(** ** The queue in the training loop *)

Section Training.
Context {image embedding : Type}.

(** [self.num_classes]. *)
Variable num_classes : Z.

(** One iteration of the loop of [train] over the batches of an epoch, as
    far as [self.queue] goes: [queue_x, queue_y = self.get_queue()], and,
    after the loss and the step of the optimizer, [self.enqueue()] and
    [self.dequeue()], both with [size=1]. The forward pass of the student,
    the loss and the optimizer do not touch the queue, and are taken to
    return. [teacher_forward] is the teacher of this iteration
    ([momentum_synchronize] changes it after each one), [loader] what a new
    iteration over [self.loader] yields. *)
Definition train_step (teacher_forward : list image → list embedding)
    (loader : list (@batch image)) (q : gmap Z (list (list embedding)))
  : result (gmap Z (list (list embedding))) :=
  _ ← get_queue num_classes q ;
  q1 ← enqueue teacher_forward num_classes loader 1 q ;
  dequeue num_classes 1 q1.

(** The iterations of [train], the epochs one after the other; an exception
    ends the run. *)
Fixpoint train (steps : list ((list image → list embedding) * list (@batch image)))
    (q : gmap Z (list (list embedding))) : result (gmap Z (list (list embedding))) :=
  match steps with
  | [] => Ok q
  | s :: steps' => q' ← train_step s.1 s.2 q ; train steps' q'
  end.

(** *** Vocabulary of the statements *)

(** The entries the iterations [steps] append to the slot of class [c]: for
    each of them, the entry of the first batch of its loader. *)
Definition new_entries (steps : list ((list image → list embedding) * list (@batch image)))
    (c : Z) : list (list embedding) :=
  concat ((λ s, (λ b, class_entry s.1 b c) <$> take 1 s.2) <$> steps).

(** The samples whose label is a class of [range(num_classes)], in a batch
    and in a sequence of batches. *)
Definition count_in_range (y : list Z) : nat :=
  length (filter (λ l, (0 ≤ l < num_classes)%Z) y).
Definition samples_in_range (bs : list (@batch image)) : nat :=
  sum_list ((λ b : batch, count_in_range b.2) <$> bs).

End Training.

(** Parameters to run the momentum update on: a student and a teacher of one
    parameter of two entries. *)
Definition example_student : list parameter :=
  [Parameter_ [1; 2]%R true].
Definition example_teacher_parameters : list parameter :=
  [Parameter_ [3; 5]%R true].

(** * Properties *)

(** ** [range] and [for_each] *)

Lemma elem_of_range (n i : Z) : i ∈ range n ↔ (0 ≤ i < n)%Z.
Proof.
  unfold range. rewrite list_elem_of_fmap. split.
  - intros (k & -> & Hk). apply elem_of_seq in Hk. lia.
  - intros Hi. exists (Z.to_nat i). split; [lia|]. apply elem_of_seq. lia.
Qed.

Lemma NoDup_range (n : Z) : NoDup (range n).
Proof.
  unfold range. apply NoDup_fmap_2; [|apply NoDup_seq].
  intros a b. lia.
Qed.

Lemma length_range (n : Z) : length (range n) = Z.to_nat n.
Proof. unfold range. by rewrite length_fmap, length_seq. Qed.

Lemma range_sorted (n : Z) (i j : nat) (a b : Z) :
  range n !! i = Some a → range n !! j = Some b → i < j → (a < b)%Z.
Proof.
  unfold range. rewrite !list_lookup_fmap.
  intros Ha Hb Hij.
  destruct (seq 0 (Z.to_nat n) !! i) as [a'|] eqn:Ea; [|done].
  destruct (seq 0 (Z.to_nat n) !! j) as [b'|] eqn:Eb; [|done].
  apply lookup_seq in Ea as [-> _]. apply lookup_seq in Eb as [-> _].
  simpl in *. simplify_eq. lia.
Qed.

Section ForEach.
Context {V : Type}.

(** A loop whose body rewrites the slot of its own key, [g i] being the
    rewriting, succeeds when the body does on every key, and leaves the
    other slots alone. *)
Lemma for_each_update (P : Z → V → Prop) (g : Z → V → V)
    (body : Z → gmap Z V → result (gmap Z V)) (ks : list Z) (q : gmap Z V) :
  NoDup ks →
  (∀ i q v, q !! i = Some v → P i v → body i q = Ok (<[i := g i v]> q)) →
  (∀ i, i ∈ ks → ∃ v, q !! i = Some v ∧ P i v) →
  ∃ q', for_each body ks q = Ok q' ∧
        ∀ j, q' !! j = if decide (j ∈ ks) then g j <$> q !! j else q !! j.
Proof.
  intros Hnd Hbody. revert q.
  induction Hnd as [|i ks Hi Hnd IH]; intros q Hq.
  - exists q. split; [done|]. intros j. by rewrite decide_False by set_solver.
  - destruct (Hq i) as (v & Hv & HP); [set_solver|].
    cbn [for_each]. rewrite (Hbody _ _ _ Hv HP). cbn.
    destruct (IH (<[i := g i v]> q)) as (q' & Hrun & Hq').
    { intros j Hj. assert (i ≠ j) by set_solver.
      rewrite lookup_insert_ne by done. apply Hq. set_solver. }
    exists q'. split; [done|]. intros j. rewrite Hq'.
    destruct (decide (j = i)) as [->|Hne].
    + rewrite decide_False by done. rewrite decide_True by set_solver.
      by rewrite lookup_insert_eq, Hv.
    + rewrite lookup_insert_ne by done.
      destruct (decide (j ∈ ks)).
      * by rewrite decide_True by set_solver.
      * by rewrite decide_False by set_solver.
Qed.

(** The same loop raises as soon as the body does on one key. *)
Lemma for_each_raise (P : Z → V → Prop) (g : Z → V → V) (e : exn)
    (body : Z → gmap Z V → result (gmap Z V)) (ks : list Z) (q : gmap Z V) :
  NoDup ks →
  (∀ i q v, q !! i = Some v → P i v → body i q = Ok (<[i := g i v]> q)) →
  (∀ i q v, q !! i = Some v → ¬ P i v → body i q = Raise e) →
  (∀ i v, P i v ∨ ¬ P i v) →
  (∀ i, i ∈ ks → is_Some (q !! i)) →
  (∃ i v, i ∈ ks ∧ q !! i = Some v ∧ ¬ P i v) →
  for_each body ks q = Raise e.
Proof.
  intros Hnd Hok Hbad Hdec. revert q.
  induction Hnd as [|i ks Hi Hnd IH]; intros q Hq (j & w & Hj & Hw & HnP).
  - set_solver.
  - destruct (Hq i) as [v Hv]; [set_solver|].
    cbn [for_each]. destruct (Hdec i v) as [HP|HP].
    + rewrite (Hok _ _ _ Hv HP). cbn.
      assert (j ≠ i) by (intros ->; simplify_eq; done).
      apply IH.
      * intros k Hk. assert (i ≠ k) by set_solver.
        rewrite lookup_insert_ne by done. apply Hq. set_solver.
      * exists j, w. split_and!; [set_solver| |done].
        by rewrite lookup_insert_ne.
    + by rewrite (Hbad _ _ _ Hv HP).
Qed.
End ForEach.

(** ** The memory queue *)

Section QueueFacts.
Context {image embedding : Type}.
Variable teacher_forward : list image → list embedding.
Variable num_classes : Z.

Implicit Types (q : gmap Z (list (list embedding))) (b : @batch image).
Implicit Types (loader : list (@batch image)) (l : list (list embedding)).

Lemma equal_length_has_slots q n :
  equal_length num_classes q n → has_slots num_classes q.
Proof. intros H c Hc. destruct (H c Hc) as (l & -> & _). by eexists. Qed.

(** One batch appends its class entry to every slot. *)
Lemma enqueue_batch_spec b q :
  aligned b → has_slots num_classes q →
  ∃ q', enqueue_batch teacher_forward num_classes b q = Ok q' ∧
        ∀ c, q' !! c = if decide (c ∈ range num_classes)
                       then (λ l, l ++ [class_entry teacher_forward b c]) <$> q !! c
                       else q !! c.
Proof.
  intros Hb Hq. unfold enqueue_batch.
  apply (for_each_update (λ _ _, True)
           (λ c l, l ++ [class_entry teacher_forward b c])).
  - apply NoDup_range.
  - intros i q0 l Hl _. rewrite Hl. unfold index_mask, label_eq.
    rewrite length_fmap, decide_True by done. cbn.
    unfold append_slot. by rewrite Hl.
  - intros i Hi. destruct (Hq i Hi) as [l Hl]. eauto.
Qed.

Lemma enqueue_batch_has_slots b q q' :
  has_slots num_classes q →
  enqueue_batch teacher_forward num_classes b q = Ok q' →
  aligned b → has_slots num_classes q'.
Proof.
  intros Hq Hrun Hb c Hc.
  destruct (enqueue_batch_spec b q Hb Hq) as (q'' & Hrun' & Hq'').
  rewrite Hrun in Hrun'. simplify_eq. rewrite Hq'', decide_True by done.
  destruct (Hq c Hc) as [l ->]. by eexists.
Qed.

(** The loop of [enqueue] from step [step] on handles the first
    [size - step] batches and no more. *)
Lemma enqueue_loop_spec size step loader q :
  Forall aligned loader → has_slots num_classes q →
  ∃ q', enqueue_loop teacher_forward num_classes size step loader q = Ok q' ∧
        ∀ c, q' !! c =
             if decide (c ∈ range num_classes)
             then (λ l, l ++ ((λ b, class_entry teacher_forward b c)
                                <$> take (Z.to_nat (size - step)) loader))
                    <$> q !! c
             else q !! c.
Proof.
  intros Hal. revert step q.
  induction Hal as [|b loader Hb Hal IH]; intros step q Hq.
  - exists q. split; [done|]. intros c. rewrite take_nil. cbn.
    case_decide; [|done]. destruct (q !! c); cbn; [|done].
    by rewrite app_nil_r.
  - cbn [enqueue_loop]. case_decide as Hstep.
    + exists q. split; [done|]. intros c.
      replace (Z.to_nat (size - step)) with 0%nat by lia. cbn.
      case_decide; [|done]. destruct (q !! c); cbn; [|done].
      by rewrite app_nil_r.
    + destruct (enqueue_batch_spec b q Hb Hq) as (q1 & Hrun1 & Hq1).
      rewrite Hrun1. cbn.
      destruct (IH (step + 1)%Z q1) as (q' & Hrun & Hq').
      { eapply enqueue_batch_has_slots; eauto. }
      exists q'. split; [done|]. intros c. rewrite Hq', Hq1.
      replace (Z.to_nat (size - step))
        with (S (Z.to_nat (size - (step + 1)))) by lia.
      case_decide; [|done]. destruct (q !! c); cbn; [|done].
      by rewrite <- app_assoc.
Qed.

Lemma enqueue_spec size loader q :
  Forall aligned loader → has_slots num_classes q →
  ∃ q', enqueue teacher_forward num_classes loader size q = Ok q' ∧
        ∀ c, q' !! c =
             if decide (c ∈ range num_classes)
             then (λ l, l ++ ((λ b, class_entry teacher_forward b c)
                                <$> take (Z.to_nat size) loader))
                    <$> q !! c
             else q !! c.
Proof.
  intros Hal Hq. unfold enqueue.
  destruct (enqueue_loop_spec size 0 loader q Hal Hq) as (q' & Hrun & Hq').
  exists q'. split; [done|]. intros c. rewrite Hq'.
  by replace (size - 0)%Z with size by lia.
Qed.

(** The slots [initialize_queue] starts from. *)
Lemma lookup_empty_queue c :
  empty_queue (embedding:=embedding) num_classes !! c
  = if decide (c ∈ range num_classes) then Some [] else None.
Proof.
  unfold empty_queue.
  assert (∀ ks (q0 : gmap Z (list (list embedding))),
            foldl (λ q i, <[i := []]> q) q0 ks !! c
            = if decide (c ∈ ks) then Some [] else q0 !! c) as Hfold.
  { induction ks as [|k ks IH]; intros q0; cbn.
    - by rewrite decide_False by set_solver.
    - rewrite IH. destruct (decide (c = k)) as [->|Hne].
      + rewrite lookup_insert_eq. rewrite (decide_True (P:=k ∈ k :: ks)) by set_solver.
        by case_decide.
      + rewrite lookup_insert_ne by done.
        destruct (decide (c ∈ ks)).
        * by rewrite decide_True by set_solver.
        * by rewrite decide_False by set_solver. }
  rewrite Hfold. case_decide; [done|]. apply lookup_empty.
Qed.

Lemma empty_queue_equal_length :
  equal_length (embedding:=embedding) num_classes (empty_queue num_classes) 0.
Proof.
  intros c Hc. exists []. rewrite lookup_empty_queue.
  by rewrite decide_True.
Qed.

(** [len(ks)] pops at index 0 of the slot of [i]. *)
Lemma pops_spec i (ks : list Z) q l :
  q !! i = Some l →
  for_each (λ _ q, pop0 i q) ks q
  = if decide (length ks ≤ length l)
    then Ok (<[i := drop (length ks) l]> q)
    else Raise IndexError.
Proof.
  revert q l. induction ks as [|k ks IH]; intros q l Hl.
  - cbn. rewrite decide_True by lia. by rewrite drop_0, insert_id.
  - cbn [for_each].
    replace (pop0 i q) with
      (match l with [] => Raise IndexError | _ :: l' => Ok (<[i := l']> q) end)
      by (unfold pop0; by rewrite Hl).
    destruct l as [|a l].
    + cbn. by rewrite decide_False by lia.
    + cbn. rewrite (IH _ l) by apply lookup_insert_eq.
      rewrite insert_insert_eq.
      destruct (decide (length ks ≤ length l)).
      * by rewrite decide_True by lia.
      * by rewrite decide_False by lia.
Qed.

(** [dequeue] removes the [size] oldest entries of every slot when each
    slot has them. *)
Lemma dequeue_ok size q :
  (∀ c, c ∈ range num_classes →
        ∃ l, q !! c = Some l ∧ Z.to_nat size ≤ length l) →
  ∃ q', dequeue num_classes size q = Ok q' ∧
        ∀ c, q' !! c = if decide (c ∈ range num_classes)
                       then drop (Z.to_nat size) <$> q !! c
                       else q !! c.
Proof.
  intros Hq. unfold dequeue.
  apply (for_each_update (λ _ l, Z.to_nat size ≤ length l)
           (λ _ l, drop (Z.to_nat size) l)).
  - apply NoDup_range.
  - intros i q0 l Hl Hlen. rewrite (pops_spec _ _ _ _ Hl), length_range.
    by rewrite decide_True.
  - done.
Qed.

(** [dequeue] raises when a slot has fewer than [size] entries. *)
Lemma dequeue_underflow size q :
  has_slots num_classes q →
  (∃ c l, c ∈ range num_classes ∧ q !! c = Some l ∧ (Z.of_nat (length l) < size)%Z) →
  dequeue num_classes size q = Raise IndexError.
Proof.
  intros Hq (c & l & Hc & Hl & Hlen). unfold dequeue.
  apply (for_each_raise (λ _ l, Z.to_nat size ≤ length l)
           (λ _ l, drop (Z.to_nat size) l)).
  - apply NoDup_range.
  - intros i q0 l0 Hl0 Hlen0. rewrite (pops_spec _ _ _ _ Hl0), length_range.
    by rewrite decide_True.
  - intros i q0 l0 Hl0 Hlen0. rewrite (pops_spec _ _ _ _ Hl0), length_range.
    by rewrite decide_False.
  - intros i l0. destruct (decide (Z.to_nat size ≤ length l0)); eauto.
  - done.
  - exists c, l. split_and!; [done..|lia].
Qed.

(** The loop of [get_queue] from the lists [xs] and [ys] on. *)
Lemma get_queue_loop q (ks : list Z) (xs : list (list embedding)) (ys : list Z) :
  (∀ c, c ∈ ks → ∃ l, q !! c = Some l ∧ l ≠ []) →
  for_each
    (λ i (xy : list (list embedding) * list Z),
       match q !! i with
       | Some slot =>
           now_x ← torch_cat slot ;
           Ok (xy.1 ++ [now_x], xy.2 ++ replicate (length now_x) i)
       | None => Raise KeyError
       end) ks (xs, ys)
  = Ok (xs ++ ((λ c, concat (slot q c)) <$> ks),
        ys ++ concat ((λ c, replicate (slot_rows (slot q c)) c) <$> ks)).
Proof.
  revert xs ys. induction ks as [|k ks IH]; intros xs ys Hq.
  - cbn. by rewrite !app_nil_r.
  - cbn [for_each]. destruct (Hq k) as (l & Hl & Hne); [set_solver|].
    assert (slot q k = l) as Hs by (unfold slot; by rewrite Hl).
    rewrite Hl. destruct l as [|e l]; [done|]. cbn.
    rewrite IH by (intros c Hc; apply Hq; set_solver).
    rewrite Hs. unfold slot_rows. cbn.
    by rewrite <- !app_assoc.
Qed.

End QueueFacts.

(** ** What the queue operations guarantee *)

Section QueueClaims.
Context {image embedding : Type}.
Variable teacher_forward : list image → list embedding.
Variable num_classes : Z.

Implicit Types (q : gmap Z (list (list embedding))) (b : @batch image).
Implicit Types (loader : list (@batch image)) (l : list (list embedding)).

Lemma slot_lookup q c l : q !! c = Some l → slot q c = l.
Proof. unfold slot. by intros ->. Qed.

(** [x[y == c]] has one row per sample of label [c]. *)
Lemma length_select_rows (x : list image) (y : list Z) (c : Z) :
  length x = length y →
  length (select_rows x (label_eq y c)) = count_label c y.
Proof.
  unfold select_rows, label_eq, count_label. rewrite length_fmap.
  revert y. induction x as [|a x IH]; intros [|l y] Hlen; try done.
  cbn in Hlen. injection Hlen as Hlen. cbn [fmap list_fmap zip zip_with].
  rewrite !filter_cons. cbn [snd].
  destruct (decide (l = c)) as [->|Hne].
  - rewrite bool_decide_eq_true_2 by done.
    rewrite decide_True by done. cbn. f_equal. by apply IH.
  - rewrite bool_decide_eq_false_2 by done.
    rewrite decide_False by done. by apply IH.
Qed.

(** The rows of the entries [enqueue] appends for a sequence of batches. *)
Lemma slot_rows_entries (Hrows : ∀ xs, length (teacher_forward xs) = length xs)
    (c : Z) (bs : list (@batch image)) :
  Forall aligned bs →
  slot_rows ((λ b, class_entry teacher_forward b c) <$> bs)
  = samples_of_class c bs.
Proof.
  unfold slot_rows, samples_of_class.
  induction 1 as [|b bs Hb _ IH]; [done|].
  cbn. rewrite length_app, IH. f_equal.
  unfold class_entry. rewrite Hrows. by apply length_select_rows.
Qed.

(** C10. [enqueue(size)] walks the batches the loader yields from the first
    one and handles the first [size] of them only; when the loader yields
    fewer, every slot of a class receives that smaller number of entries:
    [size] bounds the entries appended to a slot, it is not their number. *)
Theorem enqueue_takes_at_most_size loader size q :
  Forall aligned loader → has_slots num_classes q →
  ∃ q', enqueue teacher_forward num_classes loader size q = Ok q' ∧
        (∀ c, c ∈ range num_classes →
              slot q' c
              = slot q c ++ ((λ b, class_entry teacher_forward b c)
                               <$> take (Z.to_nat size) loader)
              ∧ length (slot q' c)
                = length (slot q c) + Nat.min (Z.to_nat size) (length loader)) ∧
        (∀ c, c ∉ range num_classes → q' !! c = q !! c).
Proof.
  intros Hal Hq.
  destruct (enqueue_spec teacher_forward num_classes size loader q Hal Hq)
    as (q' & Hrun & Hq').
  exists q'. split_and!; [done| |].
  - intros c Hc. destruct (Hq c Hc) as [l Hl].
    assert (q' !! c = Some (l ++ ((λ b, class_entry teacher_forward b c)
                                    <$> take (Z.to_nat size) loader))) as Hl'.
    { by rewrite Hq', decide_True, Hl. }
    rewrite (slot_lookup _ _ _ Hl), (slot_lookup _ _ _ Hl').
    split; [done|]. by rewrite length_app, length_fmap, length_take.
  - intros c Hc. by rewrite Hq', decide_False.
Qed.

(** C9. The slots of the classes always have one length: they are created
    empty, a batch handled by [enqueue] appends one entry to each of them,
    and [dequeue(size)] removes [size] entries from each of them. *)
Theorem slots_keep_equal_length q (n : nat) b loader (size : Z) :
  equal_length num_classes q n → aligned b → Forall aligned loader →
  equal_length (embedding:=embedding) num_classes (empty_queue num_classes) 0 ∧
  (∃ q', initialize_queue teacher_forward num_classes loader size = Ok q' ∧
         equal_length num_classes q' (Nat.min (Z.to_nat size) (length loader))) ∧
  (∃ q', enqueue_batch teacher_forward num_classes b q = Ok q' ∧
         equal_length num_classes q' (S n)) ∧
  (∃ q', enqueue teacher_forward num_classes loader size q = Ok q' ∧
         equal_length num_classes q' (n + Nat.min (Z.to_nat size) (length loader))) ∧
  (Z.to_nat size ≤ n →
   ∃ q', dequeue num_classes size q = Ok q' ∧
         equal_length num_classes q' (n - Z.to_nat size)).
Proof.
  intros Hq Hb Hal.
  pose proof (equal_length_has_slots _ _ _ Hq) as Hs.
  pose proof (empty_queue_equal_length (embedding:=embedding) num_classes) as He.
  split_and!.
  - done.
  - unfold initialize_queue.
    destruct (enqueue_spec teacher_forward num_classes size loader _ Hal
                (equal_length_has_slots _ _ _ He)) as (q' & Hrun & Hq').
    exists q'. split; [done|]. intros c Hc.
    destruct (He c Hc) as (l & Hl & Hlen).
    eexists. rewrite Hq', decide_True, Hl by done. split; [done|].
    rewrite length_app, length_fmap, length_take. lia.
  - destruct (enqueue_batch_spec teacher_forward num_classes b q Hb Hs)
      as (q' & Hrun & Hq').
    exists q'. split; [done|]. intros c Hc.
    destruct (Hq c Hc) as (l & Hl & Hlen).
    eexists. rewrite Hq', decide_True, Hl by done. split; [done|].
    rewrite length_app. cbn. lia.
  - destruct (enqueue_spec teacher_forward num_classes size loader q Hal Hs)
      as (q' & Hrun & Hq').
    exists q'. split; [done|]. intros c Hc.
    destruct (Hq c Hc) as (l & Hl & Hlen).
    eexists. rewrite Hq', decide_True, Hl by done. split; [done|].
    rewrite length_app, length_fmap, length_take. lia.
  - intros Hsize.
    destruct (dequeue_ok num_classes size q) as (q' & Hrun & Hq').
    { intros c Hc. destruct (Hq c Hc) as (l & Hl & Hlen). exists l.
      split; [done|]. lia. }
    exists q'. split; [done|]. intros c Hc.
    destruct (Hq c Hc) as (l & Hl & Hlen).
    eexists. rewrite Hq', decide_True, Hl by done. split; [done|].
    rewrite length_drop. lia.
Qed.

(** C6. [dequeue(size)] raises (the IndexError of [pop] on an empty list)
    when the slot of a class holds fewer than [size] entries; when every
    slot holds at least [size] entries it returns, and has removed from
    each slot its [size] oldest entries. *)
Theorem dequeue_underflow_or_oldest size q :
  has_slots num_classes q →
  ((∃ c, c ∈ range num_classes ∧ (Z.of_nat (length (slot q c)) < size)%Z) →
   dequeue num_classes size q = Raise IndexError) ∧
  ((∀ c, c ∈ range num_classes → (size ≤ Z.of_nat (length (slot q c)))%Z) →
   ∃ q', dequeue num_classes size q = Ok q' ∧
         (∀ c, c ∈ range num_classes →
               q' !! c = Some (drop (Z.to_nat size) (slot q c))) ∧
         (∀ c, c ∉ range num_classes → q' !! c = q !! c)).
Proof.
  intros Hq. split.
  - intros (c & Hc & Hlen). destruct (Hq c Hc) as [l Hl].
    rewrite (slot_lookup _ _ _ Hl) in Hlen.
    apply dequeue_underflow; [done|]. by exists c, l.
  - intros Hlen.
    destruct (dequeue_ok num_classes size q) as (q' & Hrun & Hq').
    { intros c Hc. destruct (Hq c Hc) as [l Hl]. exists l. split; [done|].
      specialize (Hlen c Hc). rewrite (slot_lookup _ _ _ Hl) in Hlen. lia. }
    exists q'. split_and!; [done| |].
    + intros c Hc. destruct (Hq c Hc) as [l Hl].
      by rewrite Hq', decide_True, Hl, (slot_lookup _ _ _ Hl).
    + intros c Hc. by rewrite Hq', decide_False.
Qed.

(** C4, as the code has it. When the loader yields a batch [b] and every
    slot is non-empty, [enqueue(1)] then [dequeue(1)] turns every slot into
    its former entries but the oldest, followed by the entry of [b]: its
    length is unchanged, and an entry that was second-oldest is now the
    oldest. *)
Theorem enqueue_dequeue_fifo b loader q :
  aligned b → Forall aligned loader →
  (∀ c, c ∈ range num_classes → ∃ l, q !! c = Some l ∧ l ≠ []) →
  ∃ q1 q2,
    enqueue teacher_forward num_classes (b :: loader) 1 q = Ok q1 ∧
    dequeue num_classes 1 q1 = Ok q2 ∧
    ∀ c, c ∈ range num_classes →
         slot q2 c = tail (slot q c) ++ [class_entry teacher_forward b c] ∧
         length (slot q2 c) = length (slot q c) ∧
         (∀ e, slot q c !! 1 = Some e → slot q2 c !! 0 = Some e).
Proof.
  intros Hb Hal Hq.
  assert (has_slots num_classes q) as Hs.
  { intros c Hc. destruct (Hq c Hc) as (l & -> & _). by eexists. }
  destruct (enqueue_spec teacher_forward num_classes 1 (b :: loader) q)
    as (q1 & Hrun1 & Hq1); [by constructor|done|].
  assert (∀ c, c ∈ range num_classes →
               ∃ l, q !! c = Some l ∧ l ≠ [] ∧
                    q1 !! c = Some (l ++ [class_entry teacher_forward b c]))
    as Hq1'.
  { intros c Hc. destruct (Hq c Hc) as (l & Hl & Hne). exists l.
    split_and!; [done..|]. by rewrite Hq1, decide_True, Hl. }
  destruct (dequeue_ok num_classes 1 q1) as (q2 & Hrun2 & Hq2).
  { intros c Hc. destruct (Hq1' c Hc) as (l & _ & _ & Hl1).
    eexists. split; [done|]. rewrite length_app. cbn. lia. }
  exists q1, q2. split_and!; [done..|]. intros c Hc.
  destruct (Hq1' c Hc) as (l & Hl & Hne & Hl1).
  assert (q2 !! c = Some (tail l ++ [class_entry teacher_forward b c])) as Hl2.
  { rewrite Hq2, decide_True, Hl1 by done. cbn. by destruct l. }
  rewrite (slot_lookup _ _ _ Hl), (slot_lookup _ _ _ Hl2).
  destruct l as [|e0 l]; [done|]. cbn. split_and!; [done| |].
  - rewrite length_app. cbn. lia.
  - intros e He. destruct l as [|e1 l]; [done|]. by simplify_eq.
Qed.

(** C3, as the code has it. After [initialize_queue(queue_size)] the slot of
    a class holds one entry per batch handled, and the rows of its entries
    number the samples of that class in the first [queue_size] batches. *)
Theorem initialize_queue_rows loader (queue_size : Z) :
  (∀ xs, length (teacher_forward xs) = length xs) →
  Forall aligned loader →
  ∃ q, initialize_queue teacher_forward num_classes loader queue_size = Ok q ∧
       ∀ c, c ∈ range num_classes →
            slot_rows (slot q c)
            = samples_of_class c (take (Z.to_nat queue_size) loader) ∧
            length (slot q c) = Nat.min (Z.to_nat queue_size) (length loader).
Proof.
  intros Hrows Hal. unfold initialize_queue.
  destruct (enqueue_spec teacher_forward num_classes queue_size loader
              (empty_queue num_classes) Hal) as (q & Hrun & Hq).
  { eapply equal_length_has_slots, empty_queue_equal_length. }
  exists q. split; [done|]. intros c Hc.
  assert (q !! c = Some ((λ b, class_entry teacher_forward b c)
                           <$> take (Z.to_nat queue_size) loader)) as Hl.
  { rewrite Hq, lookup_empty_queue. by rewrite !decide_True by done. }
  rewrite (slot_lookup _ _ _ Hl). split.
  - apply slot_rows_entries; [done|]. by apply Forall_take.
  - by rewrite length_fmap, length_take.
Qed.

(** The labels [get_queue] builds: blocks of equal labels in the order of
    the classes. *)
Lemma label_blocks_sorted (f : Z → nat) (ks : list Z) :
  StronglySorted Z.lt ks →
  StronglySorted Z.le (concat ((λ c, replicate (f c) c) <$> ks)).
Proof.
  induction 1 as [|k ks Hks IH Hlt]; cbn; [constructor|].
  induction (f k) as [|n IHn]; cbn; [done|].
  constructor; [done|]. apply Forall_app. split.
  - apply Forall_replicate. lia.
  - apply Forall_concat, Forall_fmap, Forall_forall. intros c Hc.
    apply Forall_replicate. cbn. rewrite Forall_forall in Hlt.
    specialize (Hlt c Hc). lia.
Qed.

Lemma range_strongly_sorted (n : Z) : StronglySorted Z.lt (range n).
Proof.
  unfold range. generalize (Z.to_nat n) as m. generalize 0%nat as s.
  intros s m. revert s. induction m as [|m IH]; intros s; cbn; constructor.
  - apply IH.
  - apply Forall_fmap, Forall_forall. intros k Hk.
    apply elem_of_seq in Hk. cbn. lia.
Qed.

Lemma count_label_blocks (f : Z → nat) (ks : list Z) (c : Z) :
  NoDup ks → c ∈ ks →
  count_label c (concat ((λ k, replicate (f k) k) <$> ks)) = f c.
Proof.
  unfold count_label.
  assert (∀ k n, length (filter (λ z : Z, z = c) (replicate n k))
                 = if decide (k = c) then n else 0%nat) as Hrep.
  { intros k n. destruct (decide (k = c)) as [->|Hne].
    - induction n as [|n IHn]; [done|].
      change (replicate (S n) c) with (c :: replicate n c).
      rewrite filter_cons_True by done. cbn. by f_equal.
    - induction n as [|n IHn]; [done|].
      change (replicate (S n) k) with (k :: replicate n k).
      by rewrite filter_cons_False by done. }
  assert (∀ ks, c ∉ ks →
            length (filter (λ z : Z, z = c)
                      (concat ((λ k, replicate (f k) k) <$> ks))) = 0%nat)
    as Hout.
  { clear ks. induction ks as [|k ks IH]; intros Hc; cbn; [done|].
    rewrite filter_app, length_app, Hrep, decide_False by set_solver.
    apply IH. set_solver. }
  induction 1 as [|k ks Hk Hnd IH]; intros Hc; [set_solver|].
  cbn. rewrite filter_app, length_app, Hrep.
  destruct (decide (k = c)) as [->|Hne].
  - rewrite Hout by done. lia.
  - rewrite IH by set_solver. lia.
Qed.

(** C5, as the code has it. When every class has at least one entry in its
    slot (an entry may have zero rows), [get_queue] returns the rows of the
    slots, class after class, and as many labels: for every class [c] in
    turn, [c] once per row queued in its slot. A slot whose entries have no
    rows adds nothing. *)
Theorem get_queue_flattens q :
  (0 < num_classes)%Z →
  (∀ c, c ∈ range num_classes → ∃ l, q !! c = Some l ∧ l ≠ []) →
  ∃ X Y,
    get_queue num_classes q = Ok (X, Y) ∧
    X = concat ((λ c, concat (slot q c)) <$> range num_classes) ∧
    Y = concat ((λ c, replicate (slot_rows (slot q c)) c) <$> range num_classes) ∧
    length X = sum_list ((λ c, slot_rows (slot q c)) <$> range num_classes) ∧
    length Y = length X ∧
    StronglySorted Z.le Y ∧
    (∀ c, c ∈ range num_classes → count_label c Y = slot_rows (slot q c)).
Proof.
  intros Hpos Hq. unfold get_queue.
  rewrite (get_queue_loop q (range num_classes) [] [] Hq). cbn.
  assert (range num_classes ≠ []) as Hr.
  { intros Hr. apply (f_equal length) in Hr. rewrite length_range in Hr.
    cbn in Hr. lia. }
  replace (torch_cat ((λ c, concat (slot q c)) <$> range num_classes))
    with (Ok (A:=list embedding)
            (concat ((λ c, concat (slot q c)) <$> range num_classes)))
    by (by destruct (range num_classes)).
  cbn. do 2 eexists.
  split_and!; [done..| | | |].
  - clear Hq Hr. induction (range num_classes) as [|k ks IH]; cbn; [done|].
    rewrite length_app, IH. done.
  - clear Hq Hr. induction (range num_classes) as [|k ks IH]; cbn; [done|].
    rewrite !length_app, IH, length_replicate. done.
  - apply label_blocks_sorted, range_strongly_sorted.
  - intros c Hc.
    by rewrite (count_label_blocks (λ c, slot_rows (slot q c)))
      by auto using NoDup_range.
Qed.

End QueueClaims.

(** *** The queue on the small instance *)

Ltac two_classes c Hc :=
  apply elem_of_range in Hc;
  assert (c = 0%Z ∨ c = 1%Z) as [-> | ->] by lia.

Lemma example_queue_has_slots : has_slots 2 example_queue.
Proof. intros c Hc. two_classes c Hc; vm_compute; eauto. Qed.

Lemma example_queue_equal_length : equal_length 2 example_queue 1.
Proof. intros c Hc. two_classes c Hc; vm_compute; eauto. Qed.

Lemma example_queue_non_empty c :
  c ∈ range 2 → ∃ l, example_queue !! c = Some l ∧ l ≠ [].
Proof.
  intros Hc. two_classes c Hc; eexists; (split; [reflexivity|discriminate]).
Qed.

Lemma example_batch_aligned : aligned example_batch.
Proof. reflexivity. Qed.

Lemma enqueue_takes_at_most_size_witness :
  ∃ q', enqueue example_teacher 2 [example_batch] 5 example_queue = Ok q' ∧
        slot q' 0 = [[1]; [7; 9]]%nat ∧ slot q' 1 = [[2; 3]; [8]]%nat.
Proof.
  destruct (enqueue_takes_at_most_size example_teacher 2 [example_batch] 5
              example_queue) as (q' & Hrun & Hin & _).
  - repeat constructor.
  - exact example_queue_has_slots.
  - exists q'. split; [exact Hrun|]. split.
    + destruct (Hin 0%Z) as [-> _]; [by apply elem_of_range|reflexivity].
    + destruct (Hin 1%Z) as [-> _]; [by apply elem_of_range|reflexivity].
Defined.

Lemma slots_keep_equal_length_witness :
  ∃ q', dequeue 2 1 example_queue = Ok q' ∧ equal_length 2 q' 0.
Proof.
  destruct (slots_keep_equal_length example_teacher 2 example_queue 1
              example_batch [example_batch] 1) as (_ & _ & _ & _ & Hdeq).
  - exact example_queue_equal_length.
  - exact example_batch_aligned.
  - repeat constructor.
  - apply Hdeq. reflexivity.
Defined.

Lemma dequeue_underflow_or_oldest_witness :
  dequeue 2 2 example_queue = Raise IndexError ∧
  ∃ q', dequeue 2 1 example_queue = Ok q' ∧ q' !! 0%Z = Some [] ∧ q' !! 1%Z = Some [].
Proof.
  split.
  - apply (dequeue_underflow_or_oldest 2 2 example_queue example_queue_has_slots).
    exists 0%Z. split; [by apply elem_of_range|]. vm_compute. reflexivity.
  - destruct (dequeue_underflow_or_oldest 2 1 example_queue
                example_queue_has_slots) as [_ Hok].
    destruct Hok as (q' & Hrun & Hin & _).
    + intros c Hc. two_classes c Hc; vm_compute; discriminate.
    + exists q'. split; [exact Hrun|]. split.
      * rewrite Hin by (by apply elem_of_range). reflexivity.
      * rewrite Hin by (by apply elem_of_range). reflexivity.
Defined.

(** C4 as stated fails when the loader yields no batch: [enqueue(1)] appends
    nothing, and [dequeue(1)] leaves every slot one entry shorter. *)
Lemma enqueue_dequeue_empty_loader :
  (∀ c, c ∈ range 2 → slot example_queue c ≠ []) ∧
  ∃ q1 q2,
    enqueue example_teacher 2 [] 1 example_queue = Ok q1 ∧
    dequeue 2 1 q1 = Ok q2 ∧
    length (slot q2 0) ≠ length (slot example_queue 0).
Proof.
  split.
  - intros c Hc. two_classes c Hc; vm_compute; discriminate.
  - exists example_queue. eexists. split; [reflexivity|]. split.
    + vm_compute. reflexivity.
    + vm_compute. discriminate.
Qed.

Lemma enqueue_dequeue_fifo_witness :
  ∃ q1 q2,
    enqueue example_teacher 2 [example_batch] 1 example_queue = Ok q1 ∧
    dequeue 2 1 q1 = Ok q2 ∧
    slot q2 0 = [[7; 9]]%nat ∧ slot q2 1 = [[8]]%nat.
Proof.
  destruct (enqueue_dequeue_fifo example_teacher 2 example_batch []
              example_queue) as (q1 & q2 & Hrun1 & Hrun2 & Hin).
  - exact example_batch_aligned.
  - constructor.
  - exact example_queue_non_empty.
  - exists q1, q2. split; [exact Hrun1|]. split; [exact Hrun2|]. split.
    + destruct (Hin 0%Z) as [-> _]; [by apply elem_of_range|reflexivity].
    + destruct (Hin 1%Z) as [-> _]; [by apply elem_of_range|reflexivity].
Defined.

(** C3 as stated fails: after [initialize_queue(1)] on one batch with two
    samples of class 0, the slot of class 0 has one entry, not two. *)
Lemma initialize_queue_length_is_batches :
  ∃ q, initialize_queue example_teacher 2 [example_batch] 1 = Ok q ∧
       samples_of_class 0 (take (Z.to_nat 1) [example_batch]) = 2%nat ∧
       length (slot q 0) = 1%nat ∧
       length (slot q 0) ≠ samples_of_class 0 (take (Z.to_nat 1) [example_batch]).
Proof.
  eexists. split; [vm_compute; reflexivity|].
  split; [reflexivity|]. split; [reflexivity|]. vm_compute. discriminate.
Qed.

Lemma initialize_queue_rows_witness :
  ∃ q, initialize_queue example_teacher 2 [example_batch] 1 = Ok q ∧
       slot_rows (slot q 0) = 2%nat ∧ slot_rows (slot q 1) = 1%nat.
Proof.
  destruct (initialize_queue_rows example_teacher 2 [example_batch] 1)
    as (q & Hrun & Hin).
  - reflexivity.
  - repeat constructor.
  - exists q. split; [exact Hrun|]. split.
    + destruct (Hin 0%Z) as [-> _]; [by apply elem_of_range|reflexivity].
    + destruct (Hin 1%Z) as [-> _]; [by apply elem_of_range|reflexivity].
Defined.

(** C5 as stated fails on a queue whose slot has no entry: [torch.cat] of an
    empty list raises. *)
Lemma get_queue_empty_slot_raises :
  get_queue (embedding:=nat) 1 (<[0%Z := []]> ∅) = Raise RuntimeError.
Proof. reflexivity. Qed.

Lemma get_queue_flattens_witness :
  get_queue 2 example_queue = Ok ([1; 2; 3]%nat, [0; 1; 1]%Z).
Proof.
  destruct (get_queue_flattens 2 example_queue) as (X & Y & Hrun & -> & -> & _).
  - reflexivity.
  - exact example_queue_non_empty.
  - exact Hrun.
Defined.

(** ** The momentum update *)

Section MomentumFacts.
Local Open Scope R_scope.

Lemma momentum_step_lookup m s t (j : nat) sv tv :
  data s !! j = Some sv → data t !! j = Some tv →
  data (momentum_step m s t) !! j = Some (m * tv + (1 - m) * sv).
Proof.
  intros Hs Ht. cbn. rewrite lookup_zip_with, Ht. cbn. by rewrite Hs.
Qed.

Lemma momentum_step_copy s t :
  length (data s) = length (data t) → data (momentum_step 0 s t) = data s.
Proof.
  cbn. generalize (data s) as u, (data t) as v.
  induction u as [|a u IH]; intros [|b v] Hlen; try done.
  cbn. f_equal; [lra|]. apply IH. by injection Hlen.
Qed.

Lemma momentum_step_keep s t :
  length (data s) = length (data t) → data (momentum_step 1 s t) = data t.
Proof.
  cbn. generalize (data s) as u, (data t) as v.
  induction u as [|a u IH]; intros [|b v] Hlen; try done.
  cbn. f_equal; [lra|]. apply IH. by injection Hlen.
Qed.

(** C2. On aligned parameter sequences [momentum_synchronize(m)] sets every
    entry of every teacher parameter to [m * teacher + (1 - m) * student];
    with [m = 0] the teacher's parameters become the student's, with [m = 1]
    they are left as they were, whatever the student's are. *)
Theorem momentum_synchronize_blend m student teacher :
  aligned_parameters student teacher →
  length (momentum_synchronize m student teacher) = length teacher ∧
  (∀ (i j : nat) s t sv tv,
     student !! i = Some s → teacher !! i = Some t →
     data s !! j = Some sv → data t !! j = Some tv →
     ∃ t', momentum_synchronize m student teacher !! i = Some t' ∧
           data t' !! j = Some (m * tv + (1 - m) * sv)) ∧
  (m = 0 → data <$> momentum_synchronize m student teacher = data <$> student) ∧
  (m = 1 → data <$> momentum_synchronize m student teacher = data <$> teacher).
Proof.
  induction 1 as [|s t student teacher Hst Hal (IHlen & IHblend & IH0 & IH1)].
  - split_and!; try done; intros i j s t sv tv Hs; by destruct i.
  - cbn [momentum_synchronize]. split_and!.
    + cbn. by rewrite IHlen.
    + intros [|i] j s' t' sv tv Hs Ht Hsv Htv; cbn in *.
      * simplify_eq. eexists. split; [done|].
        by apply momentum_step_lookup.
      * by eapply IHblend.
    + intros ->. cbn [fmap list_fmap]. f_equal; [|by apply IH0].
      by apply momentum_step_copy.
    + intros ->. cbn [fmap list_fmap]. f_equal; [|by apply IH1].
      by apply momentum_step_keep.
Qed.

End MomentumFacts.

Lemma momentum_synchronize_blend_witness :
  data <$> momentum_synchronize 0 [Parameter_ [1; 2]%R true]
             [Parameter_ [5; 7]%R true]
  = [[1; 2]%R].
Proof.
  destruct (momentum_synchronize_blend 0 [Parameter_ [1; 2]%R true]
              [Parameter_ [5; 7]%R true]) as (_ & _ & Hcopy & _).
  - repeat constructor.
  - exact (Hcopy eq_refl).
Defined.

(** ** The contrastive loss *)

Section LossFacts.
Local Open Scope R_scope.

Implicit Types (u v : list R) (a b : list (list R)) (y queue_y : list Z).

Lemma fmap_nth_seq {A B : Type} (f : A → B) (l : list A) (d : A) :
  (λ j, f (nth j l d)) <$> seq 0 (length l) = f <$> l.
Proof.
  induction l as [|e l IH]; [done|].
  cbn [length seq fmap list_fmap]. f_equal.
  rewrite <- fmap_S_seq, <- list_fmap_compose. exact IH.
Qed.

(** The label mask is the outer product of the labels. *)
Lemma label_mask_outer y queue_y :
  label_mask y queue_y
  = (λ yi, (λ qj, IZR yi * IZR qj) <$> queue_y) <$> y.
Proof.
  unfold label_mask, matmul, unsqueeze1, unsqueeze0.
  rewrite <- list_fmap_compose. apply list_fmap_ext. intros _ yi _. cbn.
  rewrite (list_fmap_compose IZR (λ r, IZR yi * r)).
  rewrite <- (fmap_nth_seq (λ r, IZR yi * r) (IZR <$> queue_y) 0).
  rewrite length_fmap. apply list_fmap_ext. intros _ j _. cbn.
  unfold dot. cbn. lra.
Qed.

Lemma rsum_cons (r : R) v : rsum (r :: v) = r + rsum v.
Proof. reflexivity. Qed.

Lemma rsum_zero v : Forall (λ r, r = 0) v → rsum v = 0.
Proof.
  induction 1 as [|r v -> _ IH]; [done|]. rewrite rsum_cons, IH. lra.
Qed.

(** *** The sums of the loss, row by row *)

Lemma zip_nth_seq {A B C : Type} (f : A → B → C) (l : list A) (k : list B) d e :
  length l = length k →
  (λ j, f (nth j l d) (nth j k e)) <$> seq 0 (length l) = zip_with f l k.
Proof.
  revert k. induction l as [|x l IH]; intros [|z k] Hlen; try done.
  cbn [length seq fmap list_fmap zip_with]. f_equal.
  rewrite <- fmap_S_seq, <- list_fmap_compose. apply IH. by injection Hlen.
Qed.

Lemma rsum_app v w : rsum (v ++ w) = rsum v + rsum w.
Proof.
  induction v as [|r v IH]; cbn [app]; rewrite ?rsum_cons; [cbn; lra|].
  rewrite IH. lra.
Qed.

Lemma sum_upto_rsum (n : nat) (f : nat → R) :
  sum_upto n f = rsum (f <$> seq 0 n).
Proof.
  induction n as [|n IH]; [done|].
  cbn [sum_upto]. rewrite seq_S, fmap_app, rsum_app, IH. cbn. lra.
Qed.

Lemma sum_upto_fmap {A : Type} (f : A → R) (l : list A) d :
  sum_upto (length l) (λ j, f (nth j l d)) = rsum (f <$> l).
Proof. rewrite sum_upto_rsum. by rewrite fmap_nth_seq. Qed.

Lemma sum_upto_zip {A B : Type} (f : A → B → R) (l : list A) (k : list B) d e
    (n : nat) :
  length l = n → length k = n →
  sum_upto n (λ j, f (nth j l d) (nth j k e)) = rsum (zip_with f l k).
Proof.
  intros <- Hlen. rewrite sum_upto_rsum. by rewrite zip_nth_seq.
Qed.

Lemma nth_fmap {A B : Type} (f : A → B) (l : list A) (j : nat) d e :
  (j < length l)%nat → nth j (f <$> l) e = f (nth j l d).
Proof.
  revert j. induction l as [|x l IH]; intros [|j] Hj; cbn in *; try lia; [done|].
  apply IH. lia.
Qed.

Lemma column_transpose (D : nat) a (j : nat) :
  Forall (λ v, length v = D) a → (j < length a)%nat →
  column j (transpose D a) = nth j a [].
Proof.
  intros Ha Hj. unfold column at 1, transpose. rewrite <- list_fmap_compose.
  assert (length (nth j a []) = D) as <-.
  { rewrite Forall_forall in Ha. apply Ha, list_elem_of_In, nth_In. lia. }
  transitivity (id <$> nth j a []); [|apply list_fmap_id].
  rewrite <- (fmap_nth_seq id (nth j a []) 0).
  apply list_fmap_ext. intros _ k _. cbn. unfold column.
  by rewrite (nth_fmap _ _ _ []).
Qed.

(** [gram] holds the dot products of the rows of its arguments over [t]. *)
Lemma gram_dots (D : nat) a b (t : R) :
  Forall (λ v, length v = D) b →
  gram D a b t = (λ xi, (λ qj, dot xi qj / t) <$> b) <$> a.
Proof.
  intros Hb. unfold gram, div_scalar, entrywise, matmul.
  rewrite <- list_fmap_compose. apply list_fmap_ext. intros _ xi _. cbn.
  rewrite <- list_fmap_compose.
  rewrite <- (fmap_nth_seq (λ qj, dot xi qj / t) b []).
  apply list_fmap_ext. intros i j Hj. apply lookup_seq in Hj as [-> Hj]. cbn.
  by rewrite column_transpose.
Qed.

Lemma fmap_zip_with {A B C E : Type} (g : C → E) (f : A → B → C)
    (l : list A) (k : list B) :
  g <$> zip_with f l k = zip_with (λ r s, g (f r s)) l k.
Proof.
  revert k. induction l as [|x l IH]; intros [|z k]; try done.
  cbn. by rewrite <- IH.
Qed.

Lemma rsum_zip_with_opp {A B : Type} (f : A → B → R) (l : list A) (k : list B) :
  rsum (zip_with (λ r s, - f r s) l k) = - rsum (zip_with f l k).
Proof.
  revert k. induction l as [|x l IH]; intros [|z k]; cbn [zip_with];
    try (cbn; lra).
  rewrite !rsum_cons, IH. lra.
Qed.

Lemma sum_upto_ext (n : nat) (f g : nat → R) :
  (∀ i, (i < n)%nat → f i = g i) → sum_upto n f = sum_upto n g.
Proof.
  intros Hfg. rewrite !sum_upto_rsum. f_equal. apply list_fmap_ext.
  intros i j Hj. apply lookup_seq in Hj as [-> Hj]. by apply Hfg.
Qed.

Lemma normalize_shape (D : nat) a :
  Forall (λ v, length v = D) a → Forall (λ v, length v = D) (normalize a).
Proof.
  intros Ha. apply Forall_fmap. eapply Forall_impl; [exact Ha|].
  intros v Hv. cbn. unfold normalize_row. by rewrite length_fmap.
Qed.

(** The rows of [log(softmax(gram))]. *)
Lemma log_probs_rows (D : nat) (x queue_x : list (list R)) (t : R) :
  Forall (λ v, length v = D) queue_x →
  torch_log (softmax (gram D (normalize x) (normalize queue_x) t))
  = (λ xi, row_log_prob t queue_x xi <$> queue_x) <$> x.
Proof.
  intros Hq. rewrite (gram_dots D) by by apply normalize_shape.
  unfold torch_log, softmax, entrywise, normalize.
  rewrite <- !list_fmap_compose. apply list_fmap_ext. intros _ xi _. cbn.
  unfold softmax_row. rewrite <- !list_fmap_compose.
  apply list_fmap_ext. intros _ qj _. cbn. reflexivity.
Qed.

(** The numerator of the source, before the change of sign. *)
Lemma numerator_rows (D : nat) (x : list (list R)) y (queue_x : list (list R))
    queue_y (t : R) :
  Forall (λ v, length v = D) queue_x →
  torch_sum (mul (neg (label_mask y queue_y))
               (torch_log (softmax (gram D (normalize x) (normalize queue_x) t))))
  = - weighted_log_probs x y queue_x queue_y t.
Proof.
  intros Hq. rewrite (log_probs_rows D), label_mask_outer by done.
  unfold torch_sum, mul, neg, entrywise, weighted_log_probs.
  rewrite <- list_fmap_compose, zip_with_fmap_l, zip_with_fmap_r, fmap_zip_with.
  rewrite <- rsum_zip_with_opp. f_equal. apply zip_with_ext; [|done..].
  intros yi xi. cbn.
  rewrite <- list_fmap_compose, zip_with_fmap_l, zip_with_fmap_r.
  rewrite <- rsum_zip_with_opp. f_equal. apply zip_with_ext; [|done..].
  intros qyj qj. cbn. lra.
Qed.

(** The entries of the label mask, and of a product with a mask. *)
Lemma entry_label_mask y queue_y (i j : nat) :
  (i < length y)%nat → (j < length queue_y)%nat →
  entry (label_mask y queue_y) i j
  = IZR (nth i y 0%Z) * IZR (nth j queue_y 0%Z).
Proof.
  intros Hi Hj. unfold entry. rewrite label_mask_outer.
  rewrite (nth_fmap _ _ _ 0%Z) by done.
  by rewrite (nth_fmap _ _ _ 0%Z) by done.
Qed.

Lemma entry_mul_neg_zero a b (i j : nat) :
  entry a i j = 0 → entry (mul (neg a) b) i j = 0.
Proof.
  unfold entry, mul, neg, entrywise. rewrite !nth_lookup.
  rewrite lookup_zip_with, list_lookup_fmap.
  destruct (a !! i) as [u|]; cbn; [|done].
  destruct (b !! i) as [v|]; cbn; [|done].
  rewrite ?lookup_nil, ?lookup_zip_with, ?list_lookup_fmap.
  destruct (u !! j) as [r|]; cbn; [|done].
  destruct (v !! j) as [s|]; cbn; [|done].
  intros ->. lra.
Qed.

(** *** The divisor and the scaling of the batch *)

Lemma label_mask_zero_batch y queue_y :
  Forall (λ l, l = 0%Z) y → torch_sum (label_mask y queue_y) = 0.
Proof.
  intros Hy. rewrite label_mask_outer. unfold torch_sum.
  apply rsum_zero, Forall_fmap, Forall_fmap.
  eapply Forall_impl; [exact Hy|]. intros yi ->. cbn.
  apply rsum_zero, Forall_fmap, Forall_forall. intros qj _. cbn. lra.
Qed.

Lemma label_mask_zero_queue y queue_y :
  Forall (λ l, l = 0%Z) queue_y → torch_sum (label_mask y queue_y) = 0.
Proof.
  intros Hq. rewrite label_mask_outer. unfold torch_sum.
  apply rsum_zero, Forall_fmap, Forall_fmap, Forall_forall.
  intros yi _. cbn.
  apply rsum_zero, Forall_fmap.
  eapply Forall_impl; [exact Hq|]. intros qj ->. cbn. lra.
Qed.

(** C8. The loss divides by [sum(label_mask)] without a guard: when that sum
    is zero, as it is when every batch label or every queue label is 0, the
    value returned is not finite. *)
Theorem chr_loss_zero_mask_not_finite (D : nat) (x queue_x : list (list R))
    y queue_y (t : R) :
  (torch_sum (label_mask y queue_y) = 0 →
   is_finite (chr_loss D x y queue_x queue_y t) = false) ∧
  (Forall (λ l, l = 0%Z) y → is_finite (chr_loss D x y queue_x queue_y t) = false) ∧
  (Forall (λ l, l = 0%Z) queue_y →
   is_finite (chr_loss D x y queue_x queue_y t) = false).
Proof.
  assert (torch_sum (label_mask y queue_y) = 0 →
          is_finite (chr_loss D x y queue_x queue_y t) = false) as Hzero.
  { intros Hsum. unfold chr_loss, ieee_div. cbn zeta. rewrite Hsum.
    destruct (Req_dec_T 0 0) as [_|Hne]; [|done].
    by destruct (Req_dec_T _ 0). }
  split_and!; [done| |].
  - intros Hy. by apply Hzero, label_mask_zero_batch.
  - intros Hq. by apply Hzero, label_mask_zero_queue.
Qed.

Lemma eps_pos : 0 < eps.
Proof. unfold eps. apply Rinv_0_lt_compat, pow_lt. lra. Qed.

Lemma rsum_squares_scale (k : R) v :
  rsum ((λ r, r * r) <$> (Rmult k <$> v)) = k * k * rsum ((λ r, r * r) <$> v).
Proof.
  induction v as [|r v IH]; cbn [fmap list_fmap]; [cbn; lra|].
  rewrite !rsum_cons, IH. lra.
Qed.

Lemma rsum_squares_nonneg v : 0 <= rsum ((λ r, r * r) <$> v).
Proof.
  induction v as [|r v IH]; cbn [fmap list_fmap]; [cbn; lra|].
  rewrite rsum_cons. nra.
Qed.

Lemma norm2_scale (k : R) v : 0 <= k → norm2 (Rmult k <$> v) = k * norm2 v.
Proof.
  intros Hk. unfold norm2. rewrite rsum_squares_scale.
  rewrite sqrt_mult; [|nra|apply rsum_squares_nonneg].
  by rewrite sqrt_square.
Qed.

(** A row whose norm is at least [eps] before and after the scaling is
    normalized to the same unit vector. *)
Lemma normalize_row_scale (k : R) v :
  0 < k → eps <= norm2 v → eps <= k * norm2 v →
  normalize_row (Rmult k <$> v) = normalize_row v.
Proof.
  intros Hk Hv Hkv. unfold normalize_row.
  rewrite norm2_scale by lra. rewrite !Rmax_left by done.
  rewrite <- list_fmap_compose. apply list_fmap_ext. intros _ r _. cbn.
  pose proof eps_pos. field. split; lra.
Qed.

(** C7, as the code has it. The loss of the batch scaled by [k > 0] is the
    loss of the batch when every row of the batch has a norm of at least
    [eps = 1e-12] before and after the scaling: [F.normalize] divides by
    [max(norm, eps)], so such rows are normalized to the same vectors. *)
Theorem chr_loss_scale_invariant (D : nat) (k : R) (x queue_x : list (list R))
    y queue_y (t : R) :
  0 < k →
  Forall (λ v, eps <= norm2 v ∧ eps <= k * norm2 v) x →
  chr_loss D (scale k x) y queue_x queue_y t = chr_loss D x y queue_x queue_y t.
Proof.
  intros Hk Hx. unfold chr_loss.
  replace (normalize (scale k x)) with (normalize x); [done|].
  unfold normalize, scale, entrywise. rewrite <- list_fmap_compose.
  apply Forall_fmap_ext. eapply Forall_impl; [exact Hx|].
  intros v [Hv Hkv]. cbn. symmetry. by apply normalize_row_scale.
Qed.

Lemma norm2_single (a : R) : norm2 [a] = Rabs a.
Proof. unfold norm2. cbn. rewrite Rplus_0_r. apply sqrt_Rsqr_abs. Qed.

Lemma eps_value : eps = / 1000000000000.
Proof. unfold eps. f_equal. simpl. lra. Qed.

Lemma softmax_pair_inj (u w : R) :
  ln (exp u / (exp u + exp (- u))) = ln (exp w / (exp w + exp (- w))) → u = w.
Proof.
  intros H. pose proof (exp_pos u) as Hu. pose proof (exp_pos w) as Hw.
  pose proof (exp_pos (- u)) as Hu'. pose proof (exp_pos (- w)) as Hw'.
  apply ln_inv in H; [| apply Rdiv_lt_0_compat; lra | apply Rdiv_lt_0_compat; lra].
  assert (exp u * exp (- w) = exp w * exp (- u)) as Hc.
  { apply (f_equal (λ r, r * (exp u + exp (- u)) * (exp w + exp (- w)))) in H.
    field_simplify in H; lra. }
  rewrite <- !exp_plus in Hc. apply exp_inv in Hc. lra.
Qed.

(** The loss of a batch of one row [[a]] of label 1 against the queue rows
    [[1]] and [[-1]] of labels 1 and 0, at temperature 1. *)
Lemma chr_loss_single (a : R) :
  chr_loss 1 [[a]] [1%Z] [[1];[-1]] [1%Z;0%Z] 1
  = Finite (- ln (exp (a / Rmax (Rabs a) eps) / (exp (a / Rmax (Rabs a) eps) + exp (- (a / Rmax (Rabs a) eps))))).
Proof.
  unfold chr_loss, normalize, gram, label_mask, torch_log, softmax, div_scalar, neg, mul, entrywise, matmul, transpose, column, unsqueeze0, unsqueeze1, torch_sum, softmax_row, dot, normalize_row.
  cbn [fmap list_fmap length seq zip_with nth rsum foldr].
  rewrite !norm2_single.
  pose proof eps_value as He.
  rewrite Rabs_R1. replace (Rabs (-1)) with 1 by (rewrite Rabs_left; lra).
  rewrite (Rmax_left 1 eps) by lra.
  set (u := a / Rmax (Rabs a) eps).
  replace ((u * (1 / 1) + 0) / 1) with u by field.
  replace ((u * (-1 / 1) + 0) / 1) with (- u) by field.
  unfold ieee_div. destruct (Req_dec_T _ 0) as [Hz|_]; [lra|].
  f_equal. rewrite !Rplus_0_r.
  replace (1 * 1 + 1 * 0) with 1 by lra. rewrite Rdiv_1_r.
  generalize (ln (exp u / (exp u + exp (- u)))) as L0.
  generalize (ln (exp (- u) / (exp u + exp (- u)))) as L1.
  intros L1 L0. lra.
Qed.

(** C7 as stated fails on a row shorter than [eps]: scaled by 10 it is
    normalized to another vector, and the loss changes. *)
Lemma scale_breaks_small_rows :
  chr_loss 1 (scale 10 [[eps / 10]]) [1%Z] [[1]; [-1]] [1%Z; 0%Z] 1
  ≠ chr_loss 1 [[eps / 10]] [1%Z] [[1]; [-1]] [1%Z; 0%Z] 1.
Proof.
  pose proof eps_value as He. pose proof eps_pos as Hp.
  change (scale 10 [[eps / 10]]) with [[10 * (eps / 10)]].
  rewrite !chr_loss_single.
  rewrite (Rabs_pos_eq (10 * (eps / 10))) by lra.
  rewrite (Rabs_pos_eq (eps / 10)) by lra.
  rewrite (Rmax_left (10 * (eps / 10)) eps) by lra.
  rewrite (Rmax_right (eps / 10) eps) by lra.
  replace (10 * (eps / 10) / (10 * (eps / 10))) with 1 by (field; lra).
  replace (eps / 10 / eps) with (1 / 10) by (field; lra).
  intros H. injection H as H. apply Ropp_eq_compat in H.
  rewrite !Ropp_involutive in H. apply softmax_pair_inj in H. lra.
Qed.

(** The invariance on a row of norm 3 doubled. *)
Lemma chr_loss_scale_invariant_witness :
  chr_loss 1 (scale 2 [[3]]) [1%Z] [[1]; [-1]] [1%Z; 0%Z] 1
  = chr_loss 1 [[3]] [1%Z] [[1]; [-1]] [1%Z; 0%Z] 1.
Proof.
  apply chr_loss_scale_invariant; [lra|].
  pose proof eps_value as He.
  repeat constructor; rewrite norm2_single, Rabs_pos_eq; lra.
Defined.

End LossFacts.

Lemma chr_loss_zero_mask_not_finite_witness :
  is_finite (chr_loss 1 [[1%R]] [0%Z] [[1%R]; [2%R]] [1%Z; 2%Z] 1) = false.
Proof.
  destruct (chr_loss_zero_mask_not_finite 1 [[1%R]] [[1%R]; [2%R]] [0%Z]
              [1%Z; 2%Z] 1) as (_ & Hbatch & _).
  apply Hbatch. repeat constructor.
Defined.

(** * Further properties *)

(** ** The queue at its edges *)

Section QueueEdges.
Context {image embedding : Type}.
Variable teacher_forward : list image → list embedding.
Variable num_classes : Z.
Implicit Types (q : gmap Z (list (list embedding))) (b : @batch image)
  (loader : list (@batch image)) (c : Z).

Lemma range_pos (n : Z) : (0 < n)%Z → ∃ ks, range n = 0%Z :: ks.
Proof.
  intros Hn. unfold range. destruct (Z.to_nat n) as [|m] eqn:Hm; [lia|].
  cbn. eauto.
Qed.

Lemma for_each_skip {S : Type} (body : Z → S → result S) (ks : list Z) (s : S) :
  (∀ i s, body i s = Ok s) → for_each body ks s = Ok s.
Proof.
  intros Hbody. induction ks as [|k ks IH]; [done|].
  cbn. rewrite Hbody. cbn. exact IH.
Qed.

Lemma enqueue_nothing loader size q :
  (size ≤ 0)%Z ∨ loader = [] →
  enqueue teacher_forward num_classes loader size q = Ok q.
Proof.
  unfold enqueue. intros [Hs | ->]; [|done].
  destruct loader as [|b loader]; [done|]. cbn.
  by rewrite decide_True by lia.
Qed.

Lemma dequeue_nothing size q :
  (size ≤ 0)%Z → dequeue num_classes size q = Ok q.
Proof.
  intros Hs. unfold dequeue. apply for_each_skip. intros i s.
  unfold range. by replace (Z.to_nat size) with 0%nat by lia.
Qed.

(** [enqueue(size)] and [dequeue(size)] with [size <= 0] return and leave
    the queue as it is, whatever the loader yields and whatever slots the
    queue has: the loop of [enqueue] breaks at step 0, [range(size)] is
    empty. *)
Theorem nonpositive_size_is_noop loader size q :
  (size ≤ 0)%Z →
  enqueue teacher_forward num_classes loader size q = Ok q ∧
  dequeue num_classes size q = Ok q.
Proof.
  intros Hs. split; [apply enqueue_nothing; by left | by apply dequeue_nothing].
Qed.

(** [initialize_queue(queue_size)] with [queue_size <= 0], or on a loader
    that yields no batch, returns with every slot empty; [get_queue] then
    raises the RuntimeError of [torch.cat] on an empty list. *)
Theorem initialize_queue_empty_then_get_queue_raises loader (queue_size : Z) :
  (0 < num_classes)%Z →
  (queue_size ≤ 0)%Z ∨ loader = [] →
  ∃ q, initialize_queue teacher_forward num_classes loader queue_size = Ok q ∧
       (∀ c, c ∈ range num_classes → q !! c = Some []) ∧
       get_queue num_classes q = Raise RuntimeError.
Proof.
  intros Hpos Hno. exists (empty_queue num_classes). split_and!.
  - unfold initialize_queue. by apply enqueue_nothing.
  - intros c Hc. by rewrite lookup_empty_queue, decide_True.
  - unfold get_queue. destruct (range_pos num_classes Hpos) as [ks Hks].
    assert (0%Z ∈ range num_classes) as H0 by (apply elem_of_range; lia).
    rewrite Hks. cbn.
    by rewrite lookup_empty_queue, decide_True.
Qed.

Lemma enqueue_batch_misaligned b q :
  (0 < num_classes)%Z → has_slots num_classes q → ¬ aligned b →
  enqueue_batch teacher_forward num_classes b q = Raise IndexError.
Proof.
  intros Hpos Hq Hb. unfold enqueue_batch.
  destruct (range_pos num_classes Hpos) as [ks Hks].
  destruct (Hq 0%Z) as [l Hl]; [apply elem_of_range; lia|].
  rewrite Hks. cbn. rewrite Hl. unfold index_mask.
  rewrite decide_False; [done|].
  unfold label_eq. rewrite length_fmap. exact Hb.
Qed.

Lemma enqueue_loop_misaligned size step good b rest q :
  (0 < num_classes)%Z → has_slots num_classes q →
  Forall aligned good → ¬ aligned b →
  (step + Z.of_nat (length good) < size)%Z →
  enqueue_loop teacher_forward num_classes size step (good ++ b :: rest) q
  = Raise IndexError.
Proof.
  intros Hpos Hq Hgood Hb. revert step q Hq.
  induction Hgood as [|g good Hg _ IH]; intros step q Hq Hlt; cbn in *.
  - rewrite decide_False by lia. by rewrite enqueue_batch_misaligned.
  - rewrite decide_False by lia.
    destruct (enqueue_batch_spec teacher_forward num_classes g q Hg Hq)
      as (q' & Hrun & _).
    rewrite Hrun. cbn. apply IH; [|lia].
    by eapply enqueue_batch_has_slots.
Qed.

(** [enqueue(size)] raises an IndexError at the first batch, among the
    [size] it handles, whose labels are not as many as its images: [x[mask]]
    needs a mask of the length of [x]. *)
Theorem enqueue_misaligned_raises good b rest size q :
  (0 < num_classes)%Z → has_slots num_classes q →
  Forall aligned good → ¬ aligned b →
  (Z.of_nat (length good) < size)%Z →
  enqueue teacher_forward num_classes (good ++ b :: rest) size q
  = Raise IndexError.
Proof.
  intros Hpos Hq Hgood Hb Hlt. unfold enqueue.
  apply enqueue_loop_misaligned; [done..|lia].
Qed.

(** [dequeue(m)] followed by [dequeue(n)] is [dequeue(m + n)], when every
    slot holds at least [m + n] entries. *)
Theorem dequeue_dequeue (m n : Z) q :
  (0 ≤ m)%Z → (0 ≤ n)%Z →
  (∀ c, c ∈ range num_classes →
        ∃ l, q !! c = Some l ∧ (m + n ≤ Z.of_nat (length l))%Z) →
  ∃ q1 q2, dequeue num_classes m q = Ok q1 ∧
           dequeue num_classes n q1 = Ok q2 ∧
           dequeue num_classes (m + n) q = Ok q2.
Proof.
  intros Hm Hn Hq.
  destruct (dequeue_ok num_classes m q) as (q1 & Hrun1 & Hq1).
  { intros c Hc. destruct (Hq c Hc) as (l & Hl & Hlen). exists l. split; [done|lia]. }
  destruct (dequeue_ok num_classes n q1) as (q2 & Hrun2 & Hq2).
  { intros c Hc. destruct (Hq c Hc) as (l & Hl & Hlen).
    exists (drop (Z.to_nat m) l). split.
    - by rewrite Hq1, decide_True, Hl.
    - rewrite length_drop. lia. }
  destruct (dequeue_ok num_classes (m + n) q) as (q3 & Hrun3 & Hq3).
  { intros c Hc. destruct (Hq c Hc) as (l & Hl & Hlen). exists l. split; [done|lia]. }
  exists q1, q2. split_and!; [done..|]. rewrite Hrun3. f_equal.
  apply map_eq. intros c. rewrite Hq3, Hq2, Hq1.
  destruct (decide (c ∈ range num_classes)); [|done].
  destruct (q !! c) as [l|]; [|done]. cbn.
  rewrite drop_drop. do 2 f_equal. lia.
Qed.

End QueueEdges.

(** [enqueue(0)] and [dequeue(0)] on the small instance. *)
Lemma nonpositive_size_is_noop_witness :
  enqueue example_teacher 2 [example_batch] 0 example_queue = Ok example_queue ∧
  dequeue 2 0 example_queue = Ok example_queue.
Proof.
  apply (nonpositive_size_is_noop example_teacher 2 [example_batch] 0
           example_queue).
  lia.
Defined.

(** [initialize_queue(0)] on the small instance. *)
Lemma initialize_queue_empty_then_get_queue_raises_witness :
  ∃ q, initialize_queue example_teacher 2 [example_batch] 0 = Ok q ∧
       (∀ c, c ∈ range 2 → q !! c = Some []) ∧
       get_queue 2 q = Raise RuntimeError.
Proof.
  apply (initialize_queue_empty_then_get_queue_raises example_teacher 2
           [example_batch] 0); [lia | left; lia].
Defined.

(** A second batch of two images and one label. *)
Lemma enqueue_misaligned_raises_witness :
  enqueue example_teacher 2 ([example_batch] ++ ([7; 8]%nat, [0%Z]) :: []) 2
    example_queue
  = Raise IndexError.
Proof.
  apply (enqueue_misaligned_raises example_teacher 2 [example_batch]
           ([7; 8]%nat, [0%Z]) [] 2 example_queue).
  - lia.
  - exact example_queue_has_slots.
  - repeat constructor.
  - unfold aligned. cbn. lia.
  - cbn. lia.
Defined.

(** [dequeue(1)] then [dequeue(0)] on the small instance. *)
Lemma dequeue_dequeue_witness :
  ∃ q1 q2, dequeue 2 1 example_queue = Ok q1 ∧
           dequeue 2 0 q1 = Ok q2 ∧
           dequeue 2 (1 + 0) example_queue = Ok q2.
Proof.
  apply (dequeue_dequeue 2 1 0 example_queue); [lia | lia |].
  intros c Hc. destruct (example_queue_equal_length c Hc) as (l & Hl & Hlen).
  exists l. split; [exact Hl | lia].
Defined.

(** ** The queue in the training loop *)

Section TrainingFacts.
Context {image embedding : Type}.
Variable num_classes : Z.
Implicit Types (q : gmap Z (list (list embedding))) (b : @batch image)
  (loader : list (@batch image)) (c : Z)
  (steps : list ((list image → list embedding) * list (@batch image))).

(** [get_queue] returns when every class has an entry in its slot. *)
Lemma get_queue_spec q :
  (0 < num_classes)%Z →
  (∀ c, c ∈ range num_classes → ∃ l, q !! c = Some l ∧ l ≠ []) →
  get_queue num_classes q
  = Ok (concat ((λ c, concat (slot q c)) <$> range num_classes),
        concat ((λ c, replicate (slot_rows (slot q c)) c) <$> range num_classes)).
Proof.
  intros Hpos Hq. unfold get_queue.
  rewrite (get_queue_loop q (range num_classes) [] [] Hq). cbn.
  destruct (range_pos num_classes Hpos) as [ks ->]. reflexivity.
Qed.

(** One iteration of the loop of [train] on the slots. *)
Lemma train_step_spec (teacher_forward : list image → list embedding) loader q :
  (0 < num_classes)%Z → loader ≠ [] → Forall aligned loader →
  (∀ c, c ∈ range num_classes → ∃ l, q !! c = Some l ∧ l ≠ []) →
  ∃ q', train_step num_classes teacher_forward loader q = Ok q' ∧
        ∀ c, q' !! c =
             if decide (c ∈ range num_classes)
             then (λ l, drop 1 (l ++ ((λ b, class_entry teacher_forward b c)
                                        <$> take 1 loader))) <$> q !! c
             else q !! c.
Proof.
  intros Hpos Hne Hal Hq. unfold train_step.
  rewrite get_queue_spec by done. cbn.
  assert (has_slots num_classes q) as Hs.
  { intros c Hc. destruct (Hq c Hc) as (l & -> & _). by eexists. }
  destruct (enqueue_spec teacher_forward num_classes 1 loader q Hal Hs)
    as (q1 & -> & Hq1). cbn.
  destruct (dequeue_ok num_classes 1 q1) as (q2 & -> & Hq2).
  { intros c Hc. destruct (Hq c Hc) as (l & Hl & Hl').
    eexists. split; [by rewrite Hq1, decide_True, Hl|].
    rewrite length_app. destruct l; [done|]. cbn. lia. }
  exists q2. split; [done|]. intros c. rewrite Hq2, Hq1.
  destruct (decide (c ∈ range num_classes)); [|done].
  by destruct (q !! c).
Qed.

Lemma length_new_entries steps c :
  Forall (λ s, s.2 ≠ [] ∧ Forall aligned s.2) steps →
  length (new_entries steps c) = length steps.
Proof.
  unfold new_entries. induction 1 as [|[tf loader] steps [Hne _] _ IH]; [done|].
  cbn in *. rewrite length_app, IH, length_fmap.
  destruct loader; [done|]. reflexivity.
Qed.

Lemma train_spec steps q :
  (0 < num_classes)%Z →
  Forall (λ s, s.2 ≠ [] ∧ Forall aligned s.2) steps →
  (∀ c, c ∈ range num_classes → ∃ l, q !! c = Some l ∧ l ≠ []) →
  ∃ q', train num_classes steps q = Ok q' ∧
        ∀ c, q' !! c =
             if decide (c ∈ range num_classes)
             then (λ l, drop (length steps) (l ++ new_entries steps c)) <$> q !! c
             else q !! c.
Proof.
  intros Hpos Hsteps. revert q.
  induction Hsteps as [|[tf loader] steps [Hne Hal] Hsteps IH]; intros q Hq.
  - exists q. split; [done|]. intros c. unfold new_entries. cbn.
    destruct (decide _); [|done]. destruct (q !! c); [|done]. cbn.
    by rewrite app_nil_r.
  - cbn in Hne, Hal. cbn [train fst snd].
    destruct (train_step_spec tf loader q Hpos Hne Hal Hq) as (q1 & -> & Hq1).
    cbn. destruct (IH q1) as (q' & Hrun & Hq').
    { intros c Hc. destruct (Hq c Hc) as (l & Hl & Hl').
      eexists. split; [by rewrite Hq1, decide_True, Hl|].
      intros Hnil. apply (f_equal length) in Hnil.
      rewrite length_drop, length_app, length_fmap in Hnil.
      destruct l; [done|]. destruct loader; [done|]. cbn in Hnil. lia. }
    exists q'. split; [done|]. intros c. rewrite Hq', Hq1.
    destruct (decide (c ∈ range num_classes)) as [Hc|]; [|done].
    destruct (Hq c Hc) as (l & -> & Hl'). cbn. f_equal.
    unfold new_entries. cbn [fmap list_fmap concat fst snd].
    rewrite (app_assoc l), <- (drop_app_le (l ++ _)).
    + by rewrite drop_drop.
    + rewrite length_app. destruct l; [done|]. cbn. lia.
Qed.

(** The queue through the iterations of [train]. From slots of [n >= 1]
    entries each, and loaders that yield at least one batch, no iteration
    raises in [get_queue], [enqueue] or [dequeue]; after the iterations
    [steps] every slot still holds [n] entries: its former entries and the
    new ones, without the [len(steps)] oldest. After [n] iterations or more
    nothing is left of the entries the queue started with. *)
Theorem train_keeps_window steps q (n : nat) :
  (0 < num_classes)%Z → 1 ≤ n → equal_length num_classes q n →
  Forall (λ s, s.2 ≠ [] ∧ Forall aligned s.2) steps →
  ∃ q', train num_classes steps q = Ok q' ∧
        ∀ c, c ∈ range num_classes →
             slot q' c = drop (length steps) (slot q c ++ new_entries steps c) ∧
             length (slot q' c) = n ∧
             (n ≤ length steps →
              slot q' c = drop (length steps - n) (new_entries steps c)).
Proof.
  intros Hpos Hn Hq Hsteps.
  destruct (train_spec steps q Hpos Hsteps) as (q' & Hrun & Hq').
  { intros c Hc. destruct (Hq c Hc) as (l & Hl & Hlen). exists l.
    split; [done|]. destruct l; [cbn in Hlen; lia|done]. }
  exists q'. split; [done|]. intros c Hc.
  destruct (Hq c Hc) as (l & Hl & Hlen).
  assert (q' !! c = Some (drop (length steps) (l ++ new_entries steps c))) as Hl'.
  { by rewrite Hq', decide_True, Hl. }
  rewrite (slot_lookup _ _ _ Hl), (slot_lookup _ _ _ Hl').
  split_and!; [done| |].
  - rewrite length_drop, length_app, length_new_entries by done. lia.
  - intros Hk. rewrite drop_app_ge by lia. by rewrite Hlen.
Qed.

End TrainingFacts.

(** One iteration on the small instance. *)
Lemma train_keeps_window_witness :
  ∃ q', train 2 [(example_teacher, [example_batch])] example_queue = Ok q' ∧
        ∀ c, c ∈ range 2 →
             slot q' c
             = drop 1 (slot example_queue c
                       ++ new_entries [(example_teacher, [example_batch])] c) ∧
             length (slot q' c) = 1%nat ∧
             (1 ≤ 1 →
              slot q' c
              = drop (1 - 1) (new_entries [(example_teacher, [example_batch])] c)).
Proof.
  apply (train_keeps_window 2 [(example_teacher, [example_batch])]
           example_queue 1).
  - lia.
  - lia.
  - exact example_queue_equal_length.
  - repeat constructor. discriminate.
Defined.

(** ** The rows of the queue *)

Section RangeSums.

Lemma sum_list_fmap_plus {A : Type} (f g : A → nat) (ks : list A) :
  sum_list ((λ c, f c + g c) <$> ks) = sum_list (f <$> ks) + sum_list (g <$> ks).
Proof. induction ks as [|k ks IH]; cbn; [done|]. rewrite IH. lia. Qed.

Lemma sum_list_indicator (l : Z) (ks : list Z) :
  NoDup ks →
  sum_list ((λ c, if decide (l = c) then 1 else 0) <$> ks)
  = if decide (l ∈ ks) then 1 else 0.
Proof.
  induction 1 as [|k ks Hk _ IH]; cbn.
  - destruct (decide (l ∈ [])) as [Hin|_]; [|done]. by apply elem_of_nil in Hin.
  - rewrite IH.
    destruct (decide (l = k)) as [Heq|Hne], (decide (l ∈ ks)) as [Hin|Hin],
      (decide (_ ∈ _ :: ks)) as [Hin'|Hin'];
      rewrite elem_of_cons in Hin'; try done; exfalso; subst; tauto.
Qed.

Lemma length_concat_fmap {A B : Type} (f : A → list B) (ks : list A) :
  length (concat (f <$> ks)) = sum_list ((λ c, length (f c)) <$> ks).
Proof. induction ks as [|k ks IH]; cbn; [done|]. by rewrite length_app, IH. Qed.

Lemma Forall_concat_fmap {A B : Type} (P : B → Prop) (f : A → list B)
    (ks : list A) :
  (∀ k, k ∈ ks → Forall P (f k)) → Forall P (concat (f <$> ks)).
Proof.
  induction ks as [|k ks IH]; intros Hks; cbn; [done|].
  apply Forall_app. split; [apply Hks; set_solver|].
  apply IH. intros k' Hk'. apply Hks. set_solver.
Qed.

(** Over the classes of [range(num_classes)], the samples of a class add up
    to the samples whose label is one of these classes. *)
Lemma count_label_range (num_classes : Z) (y : list Z) :
  sum_list ((λ c, count_label c y) <$> range num_classes)
  = count_in_range num_classes y.
Proof.
  unfold count_label, count_in_range. induction y as [|l y IH].
  - cbn. induction (range num_classes); cbn; [done|lia].
  - rewrite filter_cons.
    transitivity (sum_list ((λ c, (if decide (l = c) then 1 else 0)
                                  + length (filter (λ z : Z, z = c) y))
                              <$> range num_classes)).
    { f_equal. apply list_fmap_ext. intros _ c _. rewrite filter_cons.
      by destruct (decide (l = c)). }
    rewrite sum_list_fmap_plus, IH, sum_list_indicator by apply NoDup_range.
    destruct (decide (0 ≤ l < num_classes)%Z) as [Hl|Hl].
    + rewrite decide_True by by apply elem_of_range. done.
    + rewrite decide_False by by rewrite elem_of_range. done.
Qed.

Lemma samples_of_class_range {image : Type} (num_classes : Z)
    (bs : list (@batch image)) :
  sum_list ((λ c, samples_of_class c bs) <$> range num_classes)
  = samples_in_range num_classes bs.
Proof.
  unfold samples_of_class, samples_in_range.
  induction bs as [|b bs IH]; cbn.
  - induction (range num_classes); cbn; [done|lia].
  - rewrite <- IH, <- count_label_range. apply sum_list_fmap_plus.
Qed.

End RangeSums.

Section QueueRows.
Context {image embedding : Type}.
Variable teacher_forward : list image → list embedding.
Variable num_classes : Z.
Implicit Types (q : gmap Z (list (list embedding))) (b : @batch image)
  (loader : list (@batch image)) (c : Z).

(** [initialize_queue(queue_size)] then [get_queue()], for [queue_size >= 1]
    and a loader that yields a batch: the rows returned are as many as the
    samples, in the batches handled, whose label is in [range(num_classes)],
    with as many labels, all of them in that range. A sample of another
    label is in no slot: no mask [y == i] selects it. *)
Theorem initialize_queue_then_get_queue loader (queue_size : Z) :
  (∀ xs, length (teacher_forward xs) = length xs) →
  (0 < num_classes)%Z → (1 ≤ queue_size)%Z →
  loader ≠ [] → Forall aligned loader →
  ∃ q X Y,
    initialize_queue teacher_forward num_classes loader queue_size = Ok q ∧
    get_queue num_classes q = Ok (X, Y) ∧
    length X = samples_in_range num_classes (take (Z.to_nat queue_size) loader) ∧
    length Y = length X ∧
    Forall (λ l, (0 ≤ l < num_classes)%Z) Y.
Proof.
  intros Hrows Hpos Hsize Hne Hal. unfold initialize_queue.
  destruct (enqueue_spec teacher_forward num_classes queue_size loader
              (empty_queue num_classes) Hal) as (q & Hrun & Hq).
  { eapply equal_length_has_slots, empty_queue_equal_length. }
  set (bs := take (Z.to_nat queue_size) loader) in *.
  assert (∀ c, c ∈ range num_classes →
               q !! c = Some ((λ b, class_entry teacher_forward b c) <$> bs))
    as Hslot.
  { intros c Hc. by rewrite Hq, lookup_empty_queue, !decide_True. }
  assert (bs ≠ []) as Hbs.
  { subst bs. destruct loader; [done|].
    destruct (Z.to_nat queue_size) eqn:Hn; [lia|done]. }
  exists q. do 2 eexists. split; [exact Hrun|]. split.
  { apply get_queue_spec; [done|]. intros c Hc. eexists.
    split; [by apply Hslot|]. by destruct bs. }
  assert (∀ c, c ∈ range num_classes →
               slot_rows (slot q c) = samples_of_class c bs) as Hcount.
  { intros c Hc. rewrite (slot_lookup _ _ _ (Hslot c Hc)).
    apply slot_rows_entries; [done|]. subst bs. by apply Forall_take. }
  assert (sum_list ((λ c, slot_rows (slot q c)) <$> range num_classes)
          = samples_in_range num_classes bs) as Hsum.
  { rewrite <- samples_of_class_range. f_equal.
    apply list_fmap_ext. intros i c Hc. apply Hcount.
    by eapply list_elem_of_lookup_2. }
  split_and!.
  - by rewrite length_concat_fmap.
  - rewrite !length_concat_fmap. f_equal. apply list_fmap_ext.
    intros _ c _. by rewrite length_replicate.
  - apply Forall_concat_fmap. intros c Hc.
    apply Forall_replicate. by apply elem_of_range.
Qed.

End QueueRows.

(** [initialize_queue(1)] then [get_queue()] on the small instance. *)
Lemma initialize_queue_then_get_queue_witness :
  ∃ q X Y,
    initialize_queue example_teacher 2 [example_batch] 1 = Ok q ∧
    get_queue 2 q = Ok (X, Y) ∧
    length X = samples_in_range 2 (take (Z.to_nat 1) [example_batch]) ∧
    length Y = length X ∧
    Forall (λ l, (0 ≤ l < 2)%Z) Y.
Proof.
  apply (initialize_queue_then_get_queue example_teacher 2 [example_batch] 1).
  - reflexivity.
  - lia.
  - lia.
  - discriminate.
  - repeat constructor.
Defined.

(** ** The momentum update, repeated *)

Section MomentumMore.
Local Open Scope R_scope.

Lemma momentum_synchronize_lookup m student teacher (i : nat) s t :
  student !! i = Some s → teacher !! i = Some t →
  momentum_synchronize m student teacher !! i = Some (momentum_step m s t).
Proof.
  revert teacher i. induction student as [|s0 student IH];
    intros [|t0 teacher] [|i] Hs Ht; try done; cbn in *.
  - by simplify_eq.
  - by apply IH.
Qed.

Lemma length_momentum_step m s t :
  length (data s) = length (data t) →
  length (data (momentum_step m s t)) = length (data t).
Proof. intros Hlen. cbn. rewrite length_zip_with. lia. Qed.

Lemma blend_same m (d : list R) :
  zip_with (λ tv sv, m * tv + (1 - m) * sv) d d = d.
Proof. induction d as [|r d IH]; cbn; [done|]. rewrite IH. f_equal. lra. Qed.

(** After [momentum_synchronize] on aligned parameter sequences no parameter
    of the teacher requires a gradient, and every parameter has kept its
    shape. *)
Theorem momentum_synchronize_freezes m student teacher :
  aligned_parameters student teacher →
  Forall (λ t, requires_grad t = false) (momentum_synchronize m student teacher) ∧
  Forall2 (λ t t', length (data t') = length (data t))
    teacher (momentum_synchronize m student teacher).
Proof.
  induction 1 as [|s t student teacher Hst _ [IH1 IH2]]; cbn.
  - split; constructor.
  - split; constructor; try done. by apply length_momentum_step.
Qed.

(** A teacher whose parameters equal the student's keeps them under
    [momentum_synchronize(m)], whatever [m] is: after the
    [momentum_synchronize(m=0)] of [__init__], the update moves the teacher
    only when the student has moved. *)
Theorem momentum_synchronize_fixed_point m student teacher :
  data <$> student = data <$> teacher →
  data <$> momentum_synchronize m student teacher = data <$> teacher.
Proof.
  revert teacher. induction student as [|s student IH];
    intros [|t teacher] Heq; try done.
  cbn in *. injection Heq as Hst Heq. rewrite Hst, blend_same.
  f_equal. by apply IH.
Qed.

(** [momentum_synchronize(m)] called [n] times against the same student
    leaves [m^n * teacher + (1 - m^n) * student] in every entry: an
    exponential moving average. *)
Theorem momentum_synchronize_iterate m student teacher (n i j : nat) s t sv tv :
  student !! i = Some s → teacher !! i = Some t →
  data s !! j = Some sv → data t !! j = Some tv →
  ∃ t', Nat.iter n (momentum_synchronize m student) teacher !! i = Some t' ∧
        data t' !! j = Some (m ^ n * tv + (1 - m ^ n) * sv).
Proof.
  intros Hs Ht Hsv Htv. induction n as [|n (t' & Ht' & Htv')].
  - exists t. split; [done|]. rewrite Htv. f_equal. cbn. lra.
  - exists (momentum_step m s t'). split.
    + cbn. by apply momentum_synchronize_lookup.
    + rewrite (momentum_step_lookup m s t' j sv _ Hsv Htv'). f_equal. cbn. lra.
Qed.

End MomentumMore.

Lemma example_parameters_aligned :
  aligned_parameters example_student example_teacher_parameters.
Proof. repeat constructor. Qed.

(** The update with [m = 0.9] on the example parameters. *)
Lemma momentum_synchronize_freezes_witness :
  Forall (λ t, requires_grad t = false)
    (momentum_synchronize (9 / 10) example_student example_teacher_parameters) ∧
  Forall2 (λ t t', length (data t') = length (data t))
    example_teacher_parameters
    (momentum_synchronize (9 / 10) example_student example_teacher_parameters).
Proof.
  apply (momentum_synchronize_freezes (9 / 10) example_student
           example_teacher_parameters).
  exact example_parameters_aligned.
Defined.

(** A teacher equal to the example student. *)
Lemma momentum_synchronize_fixed_point_witness :
  data <$> momentum_synchronize (9 / 10) example_student example_student
  = data <$> example_student.
Proof.
  apply (momentum_synchronize_fixed_point (9 / 10) example_student
           example_student).
  reflexivity.
Defined.

(** Two updates with [m = 0.9]: the first entry, from 3 towards 1. *)
Lemma momentum_synchronize_iterate_witness :
  ∃ t', Nat.iter 2 (momentum_synchronize (9 / 10) example_student)
          example_teacher_parameters !! 0%nat = Some t' ∧
        data t' !! 0%nat
        = Some ((9 / 10) ^ 2 * 3 + (1 - (9 / 10) ^ 2) * 1)%R.
Proof.
  apply (momentum_synchronize_iterate (9 / 10) example_student
           example_teacher_parameters 2 0 0 (Parameter_ [1; 2]%R true)
           (Parameter_ [3; 5]%R true) 1 3); reflexivity.
Defined.

(** ** The loss: its divisor, its sign and its symmetries *)

Section LossMore.
Local Open Scope R_scope.
Implicit Types (u v : list R) (a b : list (list R)) (y queue_y : list Z).

Lemma rsum_scale_l {A : Type} (k : R) (f : A → R) (l : list A) :
  rsum ((λ r, k * f r) <$> l) = k * rsum (f <$> l).
Proof.
  induction l as [|r l IH]; cbn [fmap list_fmap]; [cbn; lra|].
  rewrite !rsum_cons, IH. lra.
Qed.

Lemma rsum_scale_r {A : Type} (k : R) (f : A → R) (l : list A) :
  rsum ((λ r, f r * k) <$> l) = rsum (f <$> l) * k.
Proof.
  induction l as [|r l IH]; cbn [fmap list_fmap]; [cbn; lra|].
  rewrite !rsum_cons, IH. lra.
Qed.

(** [sum(label_mask)] is the product of the sums of the labels. *)
Lemma label_mask_sum y queue_y :
  torch_sum (label_mask y queue_y) = rsum (IZR <$> y) * rsum (IZR <$> queue_y).
Proof.
  rewrite label_mask_outer. unfold torch_sum. rewrite <- list_fmap_compose.
  rewrite <- (rsum_scale_r (rsum (IZR <$> queue_y)) IZR y). f_equal.
  apply list_fmap_ext. intros _ yi _. cbn. apply rsum_scale_l.
Qed.

Lemma rsum_labels_nonneg y :
  Forall (λ l, (0 ≤ l)%Z) y → 0 <= rsum (IZR <$> y).
Proof.
  induction 1 as [|l y Hl _ IH]; cbn [fmap list_fmap]; [cbn; lra|].
  rewrite rsum_cons. apply IZR_le in Hl. lra.
Qed.

Lemma rsum_labels_zero y :
  Forall (λ l, (0 ≤ l)%Z) y →
  rsum (IZR <$> y) = 0 ↔ Forall (λ l, l = 0%Z) y.
Proof.
  induction 1 as [|l y Hl Hy IH]; cbn [fmap list_fmap]; [done|].
  rewrite rsum_cons. pose proof (rsum_labels_nonneg y Hy) as Hs.
  pose proof (IZR_le _ _ Hl) as Hl'. split.
  - intros Hsum. constructor.
    + apply eq_IZR. lra.
    + apply IH. lra.
  - intros Hall. inversion Hall as [|? ? -> Hy0]; subst.
    apply IH in Hy0. lra.
Qed.

(** The divisor of the loss. [sum(label_mask)] is the sum of the batch
    labels times the sum of the queue labels; for labels that are class
    indices (none negative) it is zero exactly when every batch label is 0 or
    every queue label is 0. *)
Theorem label_mask_sum_zero_iff y queue_y :
  Forall (λ l, (0 ≤ l)%Z) y → Forall (λ l, (0 ≤ l)%Z) queue_y →
  torch_sum (label_mask y queue_y) = rsum (IZR <$> y) * rsum (IZR <$> queue_y) ∧
  (torch_sum (label_mask y queue_y) = 0
   ↔ Forall (λ l, l = 0%Z) y ∨ Forall (λ l, l = 0%Z) queue_y).
Proof.
  intros Hy Hq. split; [apply label_mask_sum|].
  rewrite label_mask_sum.
  rewrite <- (rsum_labels_zero y), <- (rsum_labels_zero queue_y) by done.
  split.
  - apply Rmult_integral.
  - intros [-> | ->]; lra.
Qed.

Lemma Rdiv_le_1 (r s : R) : 0 < s → r <= s → r / s <= 1.
Proof.
  intros Hs Hrs. apply (Rmult_le_reg_r s); [done|].
  unfold Rdiv. rewrite Rmult_assoc, Rinv_l by lra. lra.
Qed.

Lemma Rdiv_nonneg (r s : R) : 0 <= r → 0 < s → 0 <= r / s.
Proof.
  intros Hr Hs. unfold Rdiv. apply Rmult_le_pos; [done|].
  left. by apply Rinv_0_lt_compat.
Qed.

Lemma ln_le_0 (r : R) : 0 < r → r <= 1 → ln r <= 0.
Proof.
  intros Hr [Hlt | ->]; [|rewrite ln_1; lra].
  rewrite <- ln_1. left. by apply ln_increasing.
Qed.

Lemma rsum_exp_ge {A : Type} (f : A → R) (l : list A) (e : A) :
  e ∈ l → exp (f e) <= rsum ((λ q, exp (f q)) <$> l).
Proof.
  assert (∀ k : list A, 0 <= rsum ((λ q, exp (f q)) <$> k)) as Hpos.
  { induction k as [|r k IH]; cbn [fmap list_fmap]; [cbn; lra|].
    rewrite rsum_cons. pose proof (exp_pos (f r)). lra. }
  induction 1 as [e l|e r l _ IH]; cbn [fmap list_fmap]; rewrite rsum_cons.
  - specialize (Hpos l). lra.
  - pose proof (exp_pos (f r)). lra.
Qed.

(** The log of a softmax probability is not positive. *)
Lemma row_log_prob_le_0 (t : R) (queue_x : list (list R)) (xi qj : list R) :
  qj ∈ queue_x → row_log_prob t queue_x xi qj <= 0.
Proof.
  intros Hin. unfold row_log_prob.
  pose proof (rsum_exp_ge (logit t xi) queue_x qj Hin) as Hle.
  pose proof (exp_pos (logit t xi qj)) as Hpos.
  apply ln_le_0.
  - apply Rdiv_lt_0_compat; lra.
  - apply Rdiv_le_1; lra.
Qed.

Lemma rsum_zip_with_nonpos {A B : Type} (f : A → B → R) (l : list A) (k : list B) :
  (∀ r s, r ∈ l → s ∈ k → f r s <= 0) → rsum (zip_with f l k) <= 0.
Proof.
  revert k. induction l as [|r l IH]; intros [|s k] Hf; cbn [zip_with];
    try (cbn; lra).
  rewrite rsum_cons.
  assert (f r s <= 0) by (apply Hf; by left).
  assert (rsum (zip_with f l k) <= 0).
  { apply IH. intros r' s' Hr Hs. apply Hf; by right. }
  lra.
Qed.

Lemma weighted_log_probs_nonpos (x : list (list R)) y (queue_x : list (list R))
    queue_y (t : R) :
  Forall (λ l, (0 ≤ l)%Z) y → Forall (λ l, (0 ≤ l)%Z) queue_y →
  weighted_log_probs x y queue_x queue_y t <= 0.
Proof.
  intros Hy Hq. unfold weighted_log_probs.
  apply rsum_zip_with_nonpos. intros yi xi Hyi _.
  apply rsum_zip_with_nonpos. intros qyj qj Hqyj Hqj.
  rewrite Forall_forall in Hy, Hq.
  pose proof (IZR_le _ _ (Hy yi Hyi)) as H1.
  pose proof (IZR_le _ _ (Hq qyj Hqyj)) as H2.
  pose proof (row_log_prob_le_0 t queue_x xi qj Hqj) as H3.
  assert (0 <= IZR yi * IZR qyj) by nra. nra.
Qed.

(** For labels that are class indices, a loss that is finite is not
    negative: [label_mask] has no negative entry and no log of a softmax
    probability is positive. *)
Theorem chr_loss_nonneg (D : nat) (x queue_x : list (list R)) y queue_y (t r : R) :
  Forall (λ l, (0 ≤ l)%Z) y → Forall (λ l, (0 ≤ l)%Z) queue_y →
  Forall (λ v, length v = D) queue_x →
  chr_loss D x y queue_x queue_y t = Finite r → 0 <= r.
Proof.
  intros Hy Hq HD. unfold chr_loss. cbn zeta.
  rewrite (numerator_rows D), label_mask_sum by done.
  pose proof (weighted_log_probs_nonpos x y queue_x queue_y t Hy Hq) as Hw.
  pose proof (rsum_labels_nonneg y Hy) as H1.
  pose proof (rsum_labels_nonneg queue_y Hq) as H2.
  unfold ieee_div. destruct (Req_dec_T _ 0) as [Hz|Hnz].
  - by destruct (Req_dec_T _ 0).
  - intros [= <-].
    assert (0 <= rsum (IZR <$> y) * rsum (IZR <$> queue_y)) by nra.
    apply Rdiv_nonneg; lra.
Qed.

Lemma rsum_zip_with_scale {A B : Type} (k : R) (f : A → B → R)
    (l : list A) (l' : list B) :
  rsum (zip_with (λ r s, k * f r s) l l') = k * rsum (zip_with f l l').
Proof.
  revert l'. induction l as [|r l IH]; intros [|s l']; cbn [zip_with];
    try (cbn; lra).
  rewrite !rsum_cons, IH. lra.
Qed.

Lemma ieee_div_scale (k r s : R) :
  k ≠ 0 → ieee_div (k * r) (k * s) = ieee_div r s.
Proof.
  intros Hk. unfold ieee_div.
  destruct (Req_dec_T s 0) as [->|Hs].
  - rewrite Rmult_0_r. destruct (Req_dec_T 0 0) as [_|?]; [|done].
    destruct (Req_dec_T r 0) as [->|Hr].
    + rewrite Rmult_0_r. by destruct (Req_dec_T 0 0).
    + destruct (Req_dec_T (k * r) 0) as [Hz|_]; [|done].
      apply Rmult_integral in Hz as [?|?]; done.
  - destruct (Req_dec_T (k * s) 0) as [Hz|_].
    + apply Rmult_integral in Hz as [?|?]; done.
    + f_equal. by field.
Qed.

Lemma rsum_labels_scale (k : Z) y :
  rsum (IZR <$> (Z.mul k <$> y)) = IZR k * rsum (IZR <$> y).
Proof.
  rewrite <- list_fmap_compose, <- rsum_scale_l. f_equal.
  apply list_fmap_ext. intros _ l _. cbn. apply mult_IZR.
Qed.

Lemma weighted_log_probs_scale (k k' : Z) (x : list (list R)) y
    (queue_x : list (list R)) queue_y (t : R) :
  weighted_log_probs x (Z.mul k <$> y) queue_x (Z.mul k' <$> queue_y) t
  = IZR k * IZR k' * weighted_log_probs x y queue_x queue_y t.
Proof.
  unfold weighted_log_probs.
  rewrite zip_with_fmap_l, <- rsum_zip_with_scale. f_equal.
  apply zip_with_ext; [|done..]. intros yi xi.
  rewrite zip_with_fmap_l, <- rsum_zip_with_scale. f_equal.
  apply zip_with_ext; [|done..]. intros qyj qj.
  rewrite !mult_IZR. lra.
Qed.

(** The labels weigh the pairs up to a factor only: multiplying every batch
    label by [k] and every queue label by [k'], both other than 0, changes
    neither the numerator over the denominator nor the case of a zero
    divisor. *)
Theorem chr_loss_label_scale (D : nat) (k k' : Z) (x queue_x : list (list R))
    y queue_y (t : R) :
  k ≠ 0%Z → k' ≠ 0%Z → Forall (λ v, length v = D) queue_x →
  chr_loss D x (Z.mul k <$> y) queue_x (Z.mul k' <$> queue_y) t
  = chr_loss D x y queue_x queue_y t.
Proof.
  intros Hk Hk' HD. unfold chr_loss. cbn zeta.
  rewrite !(numerator_rows D), !label_mask_sum by done.
  rewrite weighted_log_probs_scale, !rsum_labels_scale.
  rewrite <- (ieee_div_scale (IZR k * IZR k')
                (- weighted_log_probs x y queue_x queue_y t)
                (rsum (IZR <$> y) * rsum (IZR <$> queue_y))).
  - f_equal; lra.
  - apply Rmult_integral_contrapositive. split; by apply not_0_IZR.
Qed.

Lemma row_log_prob_single (t : R) (xi q0 : list R) :
  row_log_prob t [q0] xi q0 = 0.
Proof.
  unfold row_log_prob. cbn. rewrite Rplus_0_r.
  pose proof (exp_pos (logit t xi q0)).
  rewrite Rdiv_diag by lra. apply ln_1.
Qed.

Lemma weighted_log_probs_single (x : list (list R)) y (q0 : list R) (l0 : Z)
    (t : R) :
  weighted_log_probs x y [q0] [l0] t = 0.
Proof.
  unfold weighted_log_probs. revert x.
  induction y as [|yi y IH]; intros [|xi x]; cbn [zip_with]; try done.
  rewrite rsum_cons, IH. cbn. rewrite row_log_prob_single. lra.
Qed.

(** Against a queue of one row, of a label other than 0, the loss of a batch
    of rows as long as that row is 0, at every temperature that is not 0 nor
    so close to 0 that the logit overflows ([|t| >= 1e-30] keeps it a
    float): the softmax over one logit is 1. *)
Theorem chr_loss_single_queue_row (D : nat) (x : list (list R)) y
    (q0 : list R) (l0 : Z) (t : R) :
  / 10 ^ 30 <= Rabs t →
  length y = length x → Forall (λ v, length v = D) x → length q0 = D →
  rsum (IZR <$> y) ≠ 0 → l0 ≠ 0%Z →
  chr_loss D x y [q0] [l0] t = Finite 0.
Proof.
  intros _ _ _ HD Hy Hl. unfold chr_loss. cbn zeta.
  rewrite (numerator_rows D), label_mask_sum by (by repeat constructor).
  rewrite weighted_log_probs_single. unfold ieee_div.
  destruct (Req_dec_T _ 0) as [Hz|_].
  - apply Rmult_integral in Hz as [?|Hz]; [done|].
    cbn in Hz. rewrite Rplus_0_r in Hz. by apply not_0_IZR in Hz.
  - f_equal. unfold Rdiv. lra.
Qed.

Lemma rsum_Permutation v v' : v ≡ₚ v' → rsum v = rsum v'.
Proof.
  induction 1 as [|r v v' _ IH|r s v|v v' v'' _ IH1 _ IH2];
    rewrite ?rsum_cons; [done|rewrite IH; lra|lra|congruence].
Qed.

Lemma row_log_prob_Permutation (t : R) (queue_x queue_x' : list (list R))
    (xi qj : list R) :
  queue_x ≡ₚ queue_x' →
  row_log_prob t queue_x xi qj = row_log_prob t queue_x' xi qj.
Proof.
  intros Hp. unfold row_log_prob. do 2 f_equal.
  apply rsum_Permutation. by apply fmap_Permutation.
Qed.

(** The loss does not depend on the order of the queue: permuting the rows
    of the queue together with their labels leaves it as it is. *)
Theorem chr_loss_queue_order (D : nat) (x : list (list R)) y
    (queue queue' : list (list R * Z)) (t : R) :
  queue ≡ₚ queue' → Forall (λ p, length p.1 = D) queue →
  chr_loss D x y (fst <$> queue') (snd <$> queue') t
  = chr_loss D x y (fst <$> queue) (snd <$> queue) t.
Proof.
  intros Hp HD. unfold chr_loss. cbn zeta.
  assert (Forall (λ v, length v = D) (fst <$> queue)) as HD1.
  { by apply Forall_fmap. }
  assert (Forall (λ v, length v = D) (fst <$> queue')) as HD2.
  { apply Forall_fmap. by rewrite <- Hp. }
  rewrite !(numerator_rows D), !label_mask_sum by done.
  f_equal.
  - apply Ropp_eq_compat. unfold weighted_log_probs.
    apply (f_equal rsum). apply zip_with_ext; [|done..].
    intros yi xi. rewrite !zip_with_fmap_l, !zip_with_fmap_r, !zip_with_diag.
    transitivity
      (rsum ((λ p : list R * Z,
                IZR yi * IZR p.2 * row_log_prob t (fst <$> queue) xi p.1)
               <$> queue')).
    + f_equal. apply list_fmap_ext. intros _ p _. cbn. f_equal.
      apply row_log_prob_Permutation. by rewrite Hp.
    + apply rsum_Permutation. by rewrite Hp.
  - f_equal. apply rsum_Permutation. by rewrite Hp.
Qed.

End LossMore.

(** ** The loss: its bounds *)

Section LossBound.
Local Open Scope R_scope.
Implicit Types (u v : list R) (a b : list (list R)) (y queue_y : list Z).

Lemma cauchy_schwarz_sqr u v :
  dot u v * dot u v
  <= rsum ((λ r, r * r) <$> u) * rsum ((λ r, r * r) <$> v).
Proof.
  unfold dot. revert v. induction u as [|p u IH]; intros [|q v];
    cbn [zip_with fmap list_fmap]; rewrite ?rsum_cons.
  - cbn. lra.
  - cbn. lra.
  - pose proof (rsum_squares_nonneg u). cbn [rsum foldr]. nra.
  - specialize (IH v).
    pose proof (rsum_squares_nonneg u) as HU.
    pose proof (rsum_squares_nonneg v) as HV.
    set (S := rsum (zip_with Rmult u v)) in *.
    set (U := rsum ((λ r, r * r) <$> u)) in *.
    set (V := rsum ((λ r, r * r) <$> v)) in *.
    assert (2 * (p * q) * S <= p * p * V + q * q * U) as Hmix.
    { set (W := p * p * V + q * q * U).
      set (X := 2 * (p * q) * S).
      assert (0 <= W) by (unfold W; nra).
      assert (X * X <= W * W) as Hsq.
      { assert (X * X <= 4 * (p * p) * (q * q) * (U * V)).
        { unfold X.
          replace (2 * (p * q) * S * (2 * (p * q) * S))
            with (4 * (p * p) * (q * q) * (S * S)) by ring.
          apply Rmult_le_compat_l; [nra|done]. }
        assert (W * W - 4 * (p * p) * (q * q) * (U * V)
                = (p * p * V - q * q * U) * (p * p * V - q * q * U)) as Hd.
        { unfold W. ring. }
        pose proof (Rle_0_sqr (p * p * V - q * q * U)) as Hs.
        unfold Rsqr in Hs. lra. }
      destruct (Rle_or_lt X W) as [?|Hlt]; [done|]. nra. }
    nra.
Qed.

Lemma cauchy_schwarz u v : Rabs (dot u v) <= norm2 u * norm2 v.
Proof.
  unfold norm2. rewrite <- sqrt_mult by apply rsum_squares_nonneg.
  rewrite <- sqrt_Rsqr_abs. apply sqrt_le_1_alt. apply cauchy_schwarz_sqr.
Qed.

Lemma norm2_nonneg v : 0 <= norm2 v.
Proof. apply sqrt_pos. Qed.

(** A normalized row is no longer than 1. *)
Lemma norm2_normalize_row v : norm2 (normalize_row v) <= 1.
Proof.
  unfold normalize_row. set (c := Rmax (norm2 v) eps).
  assert (0 < c) as Hc.
  { pose proof eps_pos. pose proof (Rmax_r (norm2 v) eps). fold c in H0. lra. }
  assert (norm2 v <= c) as Hv by apply Rmax_l.
  replace ((λ r, r / c) <$> v) with (Rmult (/ c) <$> v).
  - rewrite norm2_scale by (left; by apply Rinv_0_lt_compat).
    rewrite Rmult_comm. by apply Rdiv_le_1.
  - apply list_fmap_ext. intros _ r _. cbn. unfold Rdiv. lra.
Qed.

(** The logits are cosine similarities over [t]. *)
Lemma logit_bound (t : R) (xi qj : list R) :
  0 < t → - (1 / t) <= logit t xi qj <= 1 / t.
Proof.
  intros Ht. unfold logit.
  pose proof (cauchy_schwarz (normalize_row xi) (normalize_row qj)) as Hcs.
  pose proof (norm2_normalize_row xi) as H1.
  pose proof (norm2_normalize_row qj) as H2.
  pose proof (norm2_nonneg (normalize_row xi)) as H3.
  pose proof (norm2_nonneg (normalize_row qj)) as H4.
  set (d := dot (normalize_row xi) (normalize_row qj)) in *.
  assert (Rabs d <= 1) as Hd by nra.
  pose proof (Rle_abs d) as Hd1. pose proof (Rle_abs (- d)) as Hd2.
  rewrite Rabs_Ropp in Hd2. pose proof (Rinv_0_lt_compat t Ht) as Hi.
  unfold Rdiv. split; nra.
Qed.

Lemma exp_le_mono (r s : R) : r <= s → exp r <= exp s.
Proof. intros [Hlt | ->]; [left; by apply exp_increasing | lra]. Qed.

Lemma ln_le_mono (r s : R) : 0 < r → r <= s → ln r <= ln s.
Proof. intros Hr [Hlt | ->]; [left; by apply ln_increasing | lra]. Qed.

Lemma rsum_exp_le {A : Type} (f : A → R) (B : R) (l : list A) :
  (∀ q, f q <= B) →
  rsum ((λ q, exp (f q)) <$> l) <= INR (length l) * exp B.
Proof.
  intros Hf. induction l as [|q l IH]; cbn [fmap list_fmap length].
  - cbn. lra.
  - rewrite rsum_cons, S_INR. pose proof (exp_le_mono _ _ (Hf q)). lra.
Qed.

(** A softmax probability over [N2] logits within [1/t] of 0 is at least
    [exp(-2/t) / N2]. *)
Lemma row_log_prob_lower (t : R) (queue_x : list (list R)) (xi qj : list R) :
  0 < t → qj ∈ queue_x →
  - (ln (INR (length queue_x)) + 2 / t) <= row_log_prob t queue_x xi qj.
Proof.
  intros Ht Hin. unfold row_log_prob.
  set (S := rsum ((λ q, exp (logit t xi q)) <$> queue_x)).
  pose proof (exp_pos (logit t xi qj)) as HE.
  assert (exp (logit t xi qj) <= S) as HES by by apply rsum_exp_ge.
  assert (S <= INR (length queue_x) * exp (1 / t)) as HS.
  { apply rsum_exp_le. intros q. by apply logit_bound. }
  assert (0 < INR (length queue_x)) as HN.
  { apply lt_0_INR. destruct queue_x; [by apply elem_of_nil in Hin|cbn; lia]. }
  unfold Rdiv at 2. rewrite ln_mult by (try apply Rinv_0_lt_compat; lra).
  rewrite ln_exp, ln_Rinv by lra.
  assert (ln S <= ln (INR (length queue_x)) + 1 / t) as HlnS.
  { transitivity (ln (INR (length queue_x) * exp (1 / t))).
    - apply ln_le_mono; lra.
    - rewrite ln_mult by (done || apply exp_pos). rewrite ln_exp. lra. }
  pose proof (logit_bound t xi qj Ht) as [Hlo _].
  replace (2 / t) with (1 / t + 1 / t) by (field; lra). lra.
Qed.

Lemma rsum_zip_with_le {A B : Type} (f g : A → B → R) (l : list A) (k : list B) :
  (∀ r s, r ∈ l → s ∈ k → f r s <= g r s) →
  rsum (zip_with f l k) <= rsum (zip_with g l k).
Proof.
  revert k. induction l as [|r l IH]; intros [|s k] Hf; cbn [zip_with];
    try (cbn; lra).
  rewrite !rsum_cons.
  assert (f r s <= g r s) by (apply Hf; by left).
  assert (rsum (zip_with f l k) <= rsum (zip_with g l k)).
  { apply IH. intros r' s' Hr Hs. apply Hf; by right. }
  lra.
Qed.

Lemma zip_with_first {A B C : Type} (f : A → C) (l : list A) (k : list B) :
  length l = length k → zip_with (λ r _, f r) l k = f <$> l.
Proof.
  revert k. induction l as [|r l IH]; intros [|s k] Hlen; try done.
  cbn. f_equal. apply IH. by injection Hlen.
Qed.

Lemma weighted_log_probs_lower (x : list (list R)) y (queue_x : list (list R))
    queue_y (t : R) :
  0 < t → length y = length x → length queue_y = length queue_x →
  Forall (λ l, (0 ≤ l)%Z) y → Forall (λ l, (0 ≤ l)%Z) queue_y →
  - (ln (INR (length queue_x)) + 2 / t)
    * (rsum (IZR <$> y) * rsum (IZR <$> queue_y))
  <= weighted_log_probs x y queue_x queue_y t.
Proof.
  intros Ht Hy Hq Hy0 Hq0. unfold weighted_log_probs.
  set (B := ln (INR (length queue_x)) + 2 / t).
  transitivity (rsum (zip_with (λ yi (_ : list R),
                                  IZR yi * (- B * rsum (IZR <$> queue_y))) y x)).
  { rewrite (zip_with_first (λ yi, IZR yi * (- B * rsum (IZR <$> queue_y))))
      by done.
    rewrite rsum_scale_r. lra. }
  apply rsum_zip_with_le. intros yi xi Hyi _.
  transitivity (rsum (zip_with (λ qyj (_ : list R), IZR yi * - B * IZR qyj)
                        queue_y queue_x)).
  { rewrite (zip_with_first (λ qyj, IZR yi * - B * IZR qyj)) by done.
    rewrite rsum_scale_l. lra. }
  apply rsum_zip_with_le. intros qyj qj Hqyj Hqj.
  rewrite Forall_forall in Hy0, Hq0.
  pose proof (IZR_le _ _ (Hy0 yi Hyi)) as H1.
  pose proof (IZR_le _ _ (Hq0 qyj Hqyj)) as H2.
  pose proof (row_log_prob_lower t queue_x xi qj Ht Hqj) as H3. fold B in H3.
  assert (0 <= IZR yi * IZR qyj) by nra. nra.
Qed.

(** For [t > 0] and labels that are class indices, a loss that is finite is
    at most [ln(N2) + 2 / t], [N2] being the number of rows of the queue:
    every logit is within [1 / t] of 0. *)
Theorem chr_loss_upper_bound (D : nat) (x queue_x : list (list R)) y queue_y
    (t r : R) :
  0 < t → length y = length x → length queue_y = length queue_x →
  Forall (λ v, length v = D) queue_x →
  Forall (λ l, (0 ≤ l)%Z) y → Forall (λ l, (0 ≤ l)%Z) queue_y →
  chr_loss D x y queue_x queue_y t = Finite r →
  r <= ln (INR (length queue_x)) + 2 / t.
Proof.
  intros Ht Hy Hq HD Hy0 Hq0. unfold chr_loss. cbn zeta.
  rewrite (numerator_rows D), label_mask_sum by done.
  pose proof (weighted_log_probs_lower x y queue_x queue_y t Ht Hy Hq Hy0 Hq0)
    as Hw.
  pose proof (rsum_labels_nonneg y Hy0) as H1.
  pose proof (rsum_labels_nonneg queue_y Hq0) as H2.
  set (B := ln (INR (length queue_x)) + 2 / t) in *.
  set (den := rsum (IZR <$> y) * rsum (IZR <$> queue_y)) in *.
  unfold ieee_div. destruct (Req_dec_T den 0) as [Hz|Hnz].
  - by destruct (Req_dec_T _ 0).
  - intros [= <-]. assert (0 < den) as Hden by (unfold den in *; nra).
    apply (Rmult_le_reg_r den); [done|].
    unfold Rdiv. rewrite Rmult_assoc, Rinv_l by done. lra.
Qed.

(** For [t > 0] every entry of [gram] lies between [-1 / t] and [1 / t]: the
    rows are normalized to a norm of at most 1 before the product. *)
Theorem gram_entries_bounded (D : nat) (x queue_x : list (list R)) (t : R) :
  0 < t → Forall (λ v, length v = D) queue_x →
  Forall (Forall (λ g, - (1 / t) <= g <= 1 / t))
    (gram D (normalize x) (normalize queue_x) t).
Proof.
  intros Ht HD. rewrite (gram_dots D) by by apply normalize_shape.
  unfold normalize. rewrite <- !list_fmap_compose.
  apply Forall_fmap, Forall_forall. intros xi _. cbn.
  rewrite <- list_fmap_compose.
  apply Forall_fmap, Forall_forall. intros qj _. cbn.
  by apply logit_bound.
Qed.

End LossBound.

Section LossWitnesses.
Local Open Scope R_scope.

(** The divisor for the labels 1, 2 against 0, 3. *)
Lemma label_mask_sum_zero_iff_witness :
  torch_sum (label_mask [1%Z; 2%Z] [0%Z; 3%Z])
  = rsum (IZR <$> [1%Z; 2%Z]) * rsum (IZR <$> [0%Z; 3%Z]) ∧
  (torch_sum (label_mask [1%Z; 2%Z] [0%Z; 3%Z]) = 0
   ↔ Forall (λ l, l = 0%Z) [1%Z; 2%Z] ∨ Forall (λ l, l = 0%Z) [0%Z; 3%Z]).
Proof.
  apply (label_mask_sum_zero_iff [1%Z; 2%Z] [0%Z; 3%Z]);
    repeat constructor; lia.
Defined.

(** The loss of the row [[3]] against the queue rows [[1]] and [[-1]]. *)
Lemma chr_loss_nonneg_witness :
  0 <= - ln (exp (3 / Rmax (Rabs 3) eps)
             / (exp (3 / Rmax (Rabs 3) eps) + exp (- (3 / Rmax (Rabs 3) eps)))).
Proof.
  apply (chr_loss_nonneg 1 [[3]] [[1]; [-1]] [1%Z] [1%Z; 0%Z] 1).
  - repeat constructor; lia.
  - repeat constructor; lia.
  - repeat constructor.
  - apply chr_loss_single.
Defined.

(** Batch labels doubled, queue labels tripled. *)
Lemma chr_loss_label_scale_witness :
  chr_loss 1 [[3]] (Z.mul 2 <$> [1%Z]) [[1]; [-1]] (Z.mul 3 <$> [1%Z; 0%Z]) 1
  = chr_loss 1 [[3]] [1%Z] [[1]; [-1]] [1%Z; 0%Z] 1.
Proof.
  apply (chr_loss_label_scale 1 2 3 [[3]] [[1]; [-1]] [1%Z] [1%Z; 0%Z] 1).
  - lia.
  - lia.
  - repeat constructor.
Defined.

(** Two batch rows against a queue of one row. *)
Lemma chr_loss_single_queue_row_witness :
  chr_loss 1 [[3]; [4]] [1%Z; 2%Z] [[1]] [1%Z] 1 = Finite 0.
Proof.
  apply (chr_loss_single_queue_row 1 [[3]; [4]] [1%Z; 2%Z] [1] 1 1).
  - rewrite Rabs_R1, <- Rinv_1. apply Rinv_le_contravar; [lra|].
    apply pow_R1_Rle. lra.
  - reflexivity.
  - repeat constructor.
  - reflexivity.
  - cbn. lra.
  - lia.
Defined.

(** The two rows of the queue swapped. *)
Lemma chr_loss_queue_order_witness :
  chr_loss 1 [[3]] [1%Z] (fst <$> [([-1], 0%Z); ([1], 1%Z)])
    (snd <$> [([-1], 0%Z); ([1], 1%Z)]) 1
  = chr_loss 1 [[3]] [1%Z] (fst <$> [([1], 1%Z); ([-1], 0%Z)])
      (snd <$> [([1], 1%Z); ([-1], 0%Z)]) 1.
Proof.
  apply (chr_loss_queue_order 1 [[3]] [1%Z] [([1], 1%Z); ([-1], 0%Z)]
           [([-1], 0%Z); ([1], 1%Z)] 1).
  - apply perm_swap.
  - repeat constructor.
Defined.

(** The same loss is at most [ln 2 + 2]. *)
Lemma chr_loss_upper_bound_witness :
  - ln (exp (3 / Rmax (Rabs 3) eps)
        / (exp (3 / Rmax (Rabs 3) eps) + exp (- (3 / Rmax (Rabs 3) eps))))
  <= ln (INR 2) + 2 / 1.
Proof.
  apply (chr_loss_upper_bound 1 [[3]] [[1]; [-1]] [1%Z] [1%Z; 0%Z] 1).
  - lra.
  - reflexivity.
  - reflexivity.
  - repeat constructor.
  - repeat constructor; lia.
  - repeat constructor; lia.
  - apply chr_loss_single.
Defined.

(** The logits at temperature 2. *)
Lemma gram_entries_bounded_witness :
  Forall (Forall (λ g, - (1 / 2) <= g <= 1 / 2))
    (gram 1 (normalize [[3]]) (normalize [[1]; [-1]]) 2).
Proof.
  apply (gram_entries_bounded 1 [[3]] [[1]; [-1]] 2).
  - lra.
  - repeat constructor.
Defined.

End LossWitnesses.

(** ** The loss against the formula of the specification *)

Section LossFormula.
Local Open Scope R_scope.
Implicit Types (u v : list R) (a b : list (list R)) (y queue_y : list Z).

Lemma spec_norm_norm2 (D : nat) v : length v = D → spec_norm D v = norm2 v.
Proof.
  intros <-. unfold spec_norm, norm2. f_equal.
  apply (sum_upto_fmap (λ r, r * r) v 0).
Qed.

(** [F.normalize] is the L2 normalization on a row at least [eps] long. *)
Lemma normalize_row_l2 v :
  eps <= norm2 v → normalize_row v = (λ r, r / norm2 v) <$> v.
Proof. intros Hv. unfold normalize_row. by rewrite Rmax_left. Qed.

Lemma dot_sum_upto (D : nat) u v :
  length u = D → length v = D →
  dot u v = sum_upto D (λ k, nth k u 0 * nth k v 0).
Proof.
  intros Hu Hv. unfold dot. symmetry.
  by apply (sum_upto_zip Rmult u v 0 0 D).
Qed.

Lemma Forall_nth_row (P : list R → Prop) a (i : nat) :
  Forall P a → (i < length a)%nat → P (nth i a []).
Proof.
  intros Ha Hi. rewrite Forall_forall in Ha.
  apply Ha, list_elem_of_In, nth_In. lia.
Qed.

Lemma spec_gram_logit (D : nat) (x queue_x : list (list R)) (t : R) (i j : nat) :
  Forall (λ v, length v = D ∧ eps <= norm2 v) x →
  Forall (λ v, length v = D ∧ eps <= norm2 v) queue_x →
  (i < length x)%nat → (j < length queue_x)%nat →
  spec_gram D x queue_x t i j = logit t (nth i x []) (nth j queue_x []).
Proof.
  intros Hx Hq Hi Hj.
  destruct (Forall_nth_row _ x i Hx Hi) as [Hxl Hxn].
  destruct (Forall_nth_row _ queue_x j Hq Hj) as [Hql Hqn].
  unfold spec_gram, logit. f_equal.
  rewrite (dot_sum_upto D)
    by (unfold normalize_row; by rewrite length_fmap).
  apply sum_upto_ext. intros k Hk.
  rewrite !spec_norm_norm2, !normalize_row_l2 by done.
  by rewrite !(nth_fmap _ _ _ 0) by lia.
Qed.

Lemma spec_log_prob (D : nat) (x queue_x : list (list R)) (t : R) (i j : nat) :
  Forall (λ v, length v = D ∧ eps <= norm2 v) x →
  Forall (λ v, length v = D ∧ eps <= norm2 v) queue_x →
  (i < length x)%nat → (j < length queue_x)%nat →
  ln (spec_softmax (length queue_x) (spec_gram D x queue_x t) i j)
  = row_log_prob t queue_x (nth i x []) (nth j queue_x []).
Proof.
  intros Hx Hq Hi Hj. unfold spec_softmax, row_log_prob.
  rewrite (spec_gram_logit D) by done. do 2 f_equal.
  rewrite <- (sum_upto_fmap (λ q, exp (logit t (nth i x []) q)) queue_x []).
  apply sum_upto_ext. intros j' Hj'. by rewrite (spec_gram_logit D).
Qed.

Lemma spec_numerator_rows (D : nat) (x : list (list R)) y
    (queue_x : list (list R)) queue_y (t : R) :
  length y = length x → length queue_y = length queue_x →
  Forall (λ v, length v = D ∧ eps <= norm2 v) x →
  Forall (λ v, length v = D ∧ eps <= norm2 v) queue_x →
  spec_numerator D x y queue_x queue_y t
  = - weighted_log_probs x y queue_x queue_y t.
Proof.
  intros Hy Hq Hx Hqx. unfold spec_numerator, weighted_log_probs.
  apply Ropp_eq_compat.
  rewrite <- (sum_upto_zip _ y x 0%Z [] (length x)) by done.
  apply sum_upto_ext. intros i Hi.
  rewrite <- (sum_upto_zip _ queue_y queue_x 0%Z [] (length queue_x)) by done.
  apply sum_upto_ext. intros j Hj.
  by rewrite (spec_log_prob D).
Qed.

Lemma spec_denominator_mask (x : list (list R)) y (queue_x : list (list R))
    queue_y :
  length y = length x → length queue_y = length queue_x →
  spec_denominator x y queue_x queue_y = torch_sum (label_mask y queue_y).
Proof.
  unfold spec_denominator. intros <- <-.
  rewrite label_mask_outer. unfold torch_sum.
  rewrite <- list_fmap_compose.
  rewrite <- (sum_upto_fmap _ y 0%Z).
  apply sum_upto_ext. intros i _. cbn.
  by rewrite <- (sum_upto_fmap _ queue_y 0%Z).
Qed.

(** The logits at a temperature of either sign. *)
Lemma logit_bound_abs (t : R) (xi qj : list R) :
  t ≠ 0 → Rabs (logit t xi qj) <= 1 / Rabs t.
Proof.
  intros Ht. unfold logit.
  pose proof (cauchy_schwarz (normalize_row xi) (normalize_row qj)) as Hcs.
  pose proof (norm2_normalize_row xi) as H1.
  pose proof (norm2_normalize_row qj) as H2.
  pose proof (norm2_nonneg (normalize_row xi)) as H3.
  pose proof (norm2_nonneg (normalize_row qj)) as H4.
  set (d := dot (normalize_row xi) (normalize_row qj)) in *.
  assert (Rabs d <= 1) as Hd by nra.
  pose proof (Rabs_pos_lt t Ht) as Hpos.
  unfold Rdiv. rewrite Rabs_mult, Rabs_inv.
  apply Rmult_le_compat_r; [|done].
  left. by apply Rinv_0_lt_compat.
Qed.

(** No softmax probability is below [exp(-2/|t|) / N2]. *)
Lemma row_log_prob_lower_abs (t : R) (queue_x : list (list R)) (xi qj : list R) :
  t ≠ 0 → qj ∈ queue_x →
  - (ln (INR (length queue_x)) + 2 / Rabs t) <= row_log_prob t queue_x xi qj.
Proof.
  intros Ht Hin. unfold row_log_prob.
  assert (∀ q, - (1 / Rabs t) <= logit t xi q <= 1 / Rabs t) as Hlogit.
  { intros q. pose proof (logit_bound_abs t xi q Ht) as Hb.
    pose proof (Rle_abs (logit t xi q)) as Hb1.
    pose proof (Rle_abs (- logit t xi q)) as Hb2.
    rewrite Rabs_Ropp in Hb2. lra. }
  set (S := rsum ((λ q, exp (logit t xi q)) <$> queue_x)).
  pose proof (exp_pos (logit t xi qj)) as HE.
  assert (exp (logit t xi qj) <= S) as HES by by apply rsum_exp_ge.
  assert (S <= INR (length queue_x) * exp (1 / Rabs t)) as HS.
  { apply rsum_exp_le. intros q. apply Hlogit. }
  assert (0 < INR (length queue_x)) as HN.
  { apply lt_0_INR. destruct queue_x; [by apply elem_of_nil in Hin|cbn; lia]. }
  unfold Rdiv at 2. rewrite ln_mult by (try apply Rinv_0_lt_compat; lra).
  rewrite ln_exp, ln_Rinv by lra.
  assert (ln S <= ln (INR (length queue_x)) + 1 / Rabs t) as HlnS.
  { transitivity (ln (INR (length queue_x) * exp (1 / Rabs t))).
    - apply ln_le_mono; lra.
    - rewrite ln_mult by (done || apply exp_pos). rewrite ln_exp. lra. }
  destruct (Hlogit qj) as [Hlo _].
  pose proof (Rabs_pos_lt t Ht) as Hpos.
  replace (2 / Rabs t) with (1 / Rabs t + 1 / Rabs t) by (field; lra). lra.
Qed.

(** The entries of [log_probs]. *)
Lemma entry_log_probs (D : nat) (x queue_x : list (list R)) (t : R) (i j : nat) :
  Forall (λ v, length v = D) queue_x →
  (i < length x)%nat → (j < length queue_x)%nat →
  entry (torch_log (softmax (gram D (normalize x) (normalize queue_x) t))) i j
  = row_log_prob t queue_x (nth i x []) (nth j queue_x []).
Proof.
  intros HD Hi Hj. unfold entry. rewrite (log_probs_rows D) by done.
  rewrite (nth_fmap _ _ _ []) by done.
  by rewrite (nth_fmap _ _ _ []) by done.
Qed.

(** C1, as the code has it. On a batch [x] of shape (N1, D) with labels [y]
    and a queue [queue_x] of shape (N2, D) with labels [queue_y], rows that
    are all at least [eps = 1e-12] long, and a temperature [t] other than 0
    with [ln(N2) + 2 / |t| <= 87], [chr_loss] returns what the formula of the
    specification gives: rows divided by their Euclidean norms, [gram] their
    dot products over [t], a softmax over each row,
    [labelMask[i,j] = y_i * queue_y_j], and
    [-sum(labelMask * log(softmax(gram))) / sum(labelMask)], a value that is
    not finite when [sum(labelMask)] is 0. No log of a softmax probability
    is below -87: the probabilities are at least [exp(-87)], above the least
    normal number [2^-126] of a float, and do not underflow to 0. So a pair
    with a label 0 has the weight 0 in [labelMask], so in the divisor, and
    the entry 0 in the matrix summed for the numerator. *)
Theorem chr_loss_formula (D : nat) (x : list (list R)) y
    (queue_x : list (list R)) queue_y (t : R) :
  t ≠ 0 → ln (INR (length queue_x)) + 2 / Rabs t <= 87 →
  length y = length x → length queue_y = length queue_x →
  Forall (λ v, length v = D ∧ eps <= norm2 v) x →
  Forall (λ v, length v = D ∧ eps <= norm2 v) queue_x →
  (spec_denominator x y queue_x queue_y ≠ 0 →
   chr_loss D x y queue_x queue_y t
   = Finite (chr_loss_spec D x y queue_x queue_y t)) ∧
  (spec_denominator x y queue_x queue_y = 0 →
   is_finite (chr_loss D x y queue_x queue_y t) = false) ∧
  (∀ i j : nat, (i < length y)%nat → (j < length queue_y)%nat →
     entry (label_mask y queue_y) i j
     = IZR (nth i y 0%Z) * IZR (nth j queue_y 0%Z)) ∧
  (∀ i j : nat, (i < length y)%nat → (j < length queue_y)%nat →
     - 87 <= entry (torch_log (softmax (gram D (normalize x)
                                           (normalize queue_x) t))) i j) ∧
  (∀ i j : nat, (i < length y)%nat → (j < length queue_y)%nat →
     nth i y 0%Z = 0%Z ∨ nth j queue_y 0%Z = 0%Z →
     entry (label_mask y queue_y) i j = 0 ∧
     entry (mul (neg (label_mask y queue_y))
              (torch_log (softmax (gram D (normalize x) (normalize queue_x) t))))
       i j = 0).
Proof.
  intros Ht Hrange Hy Hq Hx Hqx.
  assert (Forall (λ v, length v = D) queue_x) as HD.
  { eapply Forall_impl; [exact Hqx|]. by intros v [? _]. }
  assert (∀ i j : nat, (i < length y)%nat → (j < length queue_y)%nat →
            nth i y 0%Z = 0%Z ∨ nth j queue_y 0%Z = 0%Z →
            entry (label_mask y queue_y) i j = 0) as Hzero.
  { intros i j Hi Hj Hl. rewrite entry_label_mask by done.
    destruct Hl as [-> | ->]; lra. }
  assert (chr_loss D x y queue_x queue_y t
          = ieee_div (spec_numerator D x y queue_x queue_y t)
              (spec_denominator x y queue_x queue_y)) as Hloss.
  { unfold chr_loss. cbn zeta.
    by rewrite (numerator_rows D), (spec_numerator_rows D),
      spec_denominator_mask. }
  split_and!.
  - intros Hden. rewrite Hloss. unfold ieee_div, chr_loss_spec.
    by destruct (Req_dec_T _ 0).
  - intros Hden. rewrite Hloss, Hden. unfold ieee_div.
    destruct (Req_dec_T 0 0) as [_|?]; [|done].
    by destruct (Req_dec_T _ 0).
  - apply entry_label_mask.
  - intros i j Hi Hj. rewrite (entry_log_probs D) by (done || lia).
    etransitivity; [|apply row_log_prob_lower_abs; [done|]].
    + lra.
    + apply list_elem_of_In, nth_In. lia.
  - intros i j Hi Hj Hl. split; [by apply Hzero|].
    by apply entry_mul_neg_zero, Hzero.
Qed.

Lemma spec_norm_single (r : R) : spec_norm 1 [r] = Rabs r.
Proof.
  unfold spec_norm. cbn. rewrite Rplus_0_l. apply sqrt_Rsqr_abs.
Qed.

(** The formula of the specification for a batch of one row [[r]] of label
    1 against the queue rows [[1]] and [[-1]] of labels 1 and 0, at
    temperature 1. *)
Lemma chr_loss_spec_single (r : R) :
  chr_loss_spec 1 [[r]] [1%Z] [[1]; [-1]] [1%Z; 0%Z] 1
  = - ln (exp (r / Rabs r) / (exp (r / Rabs r) + exp (- (r / Rabs r)))).
Proof.
  unfold chr_loss_spec, spec_numerator, spec_denominator, spec_softmax,
    spec_gram, spec_mask.
  cbn [length sum_upto nth]. rewrite !spec_norm_single.
  rewrite Rabs_R1. replace (Rabs (-1)) with 1 by (rewrite Rabs_left; lra).
  set (w := r / Rabs r).
  replace ((0 + w * (1 / 1)) / 1) with w by field.
  replace ((0 + w * (-1 / 1)) / 1) with (- w) by field.
  rewrite !Rplus_0_l.
  generalize (ln (exp w / (exp w + exp (- w)))) as L0.
  generalize (ln (exp (- w) / (exp w + exp (- w)))) as L1.
  intros L1 L0. field.
Qed.

(** C1 as stated fails on a row shorter than [eps]: [F.normalize] divides it
    by [eps], not by its norm, and the loss is not the one of the formula on
    L2-normalized rows. *)
Lemma chr_loss_small_row_not_l2_normalized :
  spec_denominator [[eps / 10]] [1%Z] [[1]; [-1]] [1%Z; 0%Z] ≠ 0 ∧
  chr_loss 1 [[eps / 10]] [1%Z] [[1]; [-1]] [1%Z; 0%Z] 1
  ≠ Finite (chr_loss_spec 1 [[eps / 10]] [1%Z] [[1]; [-1]] [1%Z; 0%Z] 1).
Proof.
  pose proof eps_value as He. pose proof eps_pos as Hp. split.
  - unfold spec_denominator, spec_mask. cbn. lra.
  - rewrite chr_loss_single, chr_loss_spec_single.
    rewrite (Rabs_pos_eq (eps / 10)) by lra.
    rewrite (Rmax_right (eps / 10) eps) by lra.
    replace (eps / 10 / eps) with (1 / 10) by (field; lra).
    replace (eps / 10 / (eps / 10)) with 1 by (field; lra).
    intros H. injection H as H. apply Ropp_eq_compat in H.
    rewrite !Ropp_involutive in H. apply softmax_pair_inj in H. lra.
Qed.

Lemma ln_2_lt_2 : ln 2 < 2.
Proof.
  pose proof (exp_ineq1 2 ltac:(lra)) as Hexp.
  pose proof (ln_increasing 2 (exp 2) ltac:(lra) ltac:(lra)) as Hln.
  by rewrite ln_exp in Hln.
Qed.

(** The formula on a batch of one row against a queue of two. *)
Lemma chr_loss_formula_witness :
  chr_loss 1 [[3]] [1%Z] [[1]; [-1]] [1%Z; 0%Z] 1
  = Finite (chr_loss_spec 1 [[3]] [1%Z] [[1]; [-1]] [1%Z; 0%Z] 1).
Proof.
  pose proof eps_value as He. pose proof ln_2_lt_2 as Hln.
  destruct (chr_loss_formula 1 [[3]] [1%Z] [[1]; [-1]] [1%Z; 0%Z] 1)
    as (Hvalue & _).
  - lra.
  - rewrite Rabs_R1. replace (INR (length [[1]; [-1]])) with 2 by (cbn; lra).
    lra.
  - reflexivity.
  - reflexivity.
  - repeat constructor. rewrite norm2_single, Rabs_pos_eq; lra.
  - repeat constructor; rewrite norm2_single.
    + rewrite Rabs_R1. lra.
    + replace (Rabs (-1)) with 1 by (rewrite Rabs_left; lra). lra.
  - apply Hvalue. unfold spec_denominator, spec_mask. cbn. lra.
Defined.

End LossFormula.
